(* ===== verification/_CoqProject ===== *)
-Q . S2P
Prelude.v
PropertyKey.v
ReactElement.v
JsObject.v
KeyOrder.v
Lodash.v
MappingsReducer.v
MappingsStore.v
IdMapper.v
FormatTypes.v
BlockEditorArea.v
