(* ===== verification/Prelude.v ===== *)
(** * Gutenberg: the navigation menu id mapper, its editor panel and the
      rich-text format-type hook

    ** The program

    Three source files of the repository:
    - [src/packages/edit-navigation/src/store/reducer.js]: the [mappings]
      reducer of the edit-navigation store, combined by [combineReducers].
      Its slice holds two objects, [menuItemIdByClientId] (written with
      menu item ids as keys, client ids as values: the spec's "forward"
      table) and [clientIdByMenuItemId] (lodash's [invert] of the first:
      the "backward" table).  Two actions change it:
      [SET_MENU_ITEMS_TO_CLIENT_ID_MAPPING] replaces both tables,
      [ASSIGN_MENU_ITEM_ID_TO_CLIENT_ID] adds or overwrites one pair and
      rebuilds the backward table.
    - [src/packages/edit-navigation/src/components/menu-editor/block-editor-area.js]:
      the [BlockEditorArea] component.  It reads the block editor store and
      the menu entity, keeps the "automatically add pages" checkbox in local
      state, resets it in an effect when [menuId] changes, selects the root
      block in another effect, and saves the menu when the checkbox is
      clicked.
    - [src/packages/rich-text/src/component/use-format-types.js]: the
      [useFormatTypes] hook, two folds over the registered format types
      that collect selected props, their values, and the prepare, value and
      change handlers the types contribute.

    ** The library (files in dependency order)

    - [Prelude]: this header; the [result] error monad (an [Ok] value or a
      thrown [TypeError]) with stdpp's bind notation; the hint databases
      [js] and [js_rw]; tactics ([invc], [result_simpl], [decide_closed]);
      the list lemmas the components share ([find_last], "the last write
      wins"; association lists [assoc_get]/[assoc_set]).
    - [PropertyKey]: JavaScript primitive values, [ToPropertyKey],
      [ToBoolean], and the array-index test on property keys (decimal
      numerals below 2^32 - 1), with the round trip between integer ids
      and indices.
    - [ReactElement]: what a function component returns, as data: an
      element has a type, a props list and children ([createElement]);
      callbacks are props holding a description of the closure the render
      bound; [find_type]/[prop_at] find an element and read a prop.
    - [JsObject]: ordinary objects used as dictionaries, stored as engines
      store them: array-index keys in ascending order ([elements]), other
      keys in creation order ([props]); reading, writing, [Object.keys]
      order, the spread [{ ...o, [k]: v }]; well-formedness and its
      preservation; lookup equivalence as a setoid with [Proper] instances.
    - [KeyOrder]: ECMAScript's own description of property order, one
      creation-ordered list enumerated by [OrdinaryOwnPropertyKeys] (index
      keys sorted with stdpp's [merge_sort], then the others), and the
      relation [represents] under which [JsObject] enumerates exactly what
      that description enumerates, preserved by every write and copy.
    - [Lodash]: lodash's [invert] (a dependency, modelled from its
      documented behaviour): the last key in enumeration order whose value
      converts to [p] wins; for distinct values an exact inverse that keeps
      the number of keys, is involutive and respects equivalence;
      otherwise order dependent.
    - [MappingsReducer]: the reducer [mappings] line by line (the [TypeError]
      of the assign branch on an [undefined] state and the [console.log]
      output included), the action creators, the reads of the two tables,
      and the invariant "the backward table is [invert] of the forward
      one", preserved by each action.  Theorems: the functional behaviour
      of each action (C6-C9), its error (C18) and its console output
      (C30); the forward table after an assignment against the [KeyOrder]
      description (C31).
    - [MappingsStore]: the store of [combineReducers] around the reducer,
      with [dispatch], [run_actions] and the [reachable] states (rule
      induction).  Theorems: the invariant is preserved (C3) and makes the
      backward table read the last key holding an id, and the exact
      inverse on distinct ids (C1, C2, C14-C17); it is never larger than
      the forward table (C33); dispatch never throws from a reachable
      store (C4), an assignment always takes effect (C34) and an action of
      another type changes nothing (C35); an assigned pair loses to a key
      enumerated after it, against the spec's "the new pair wins" (C10).
    - [IdMapper]: the contract of the id mapper as a type class of
      operations ([IdMapperOps]) with laws ([IdMapperLaws]); the reducer is
      an instance; client lemmas proved from the laws only (in a Section
      over any instance); a finite-map model ([gmap string js_value]) of the
      forward table that the reducer refines on every sequence of
      operations (C11).
    - [FormatTypes]: [useFormatTypes] in a Section over the types of
      [select], [dispatch] and handlers; the two folds equal a per-type
      reference description (C13); counting and alignment of handlers (C26,
      C27); the dispatcher [change_step] merges for a type (C28) and the
      sharing of a [selectProps] slot by types with the same name, the
      last one selecting props winning (C29).
    - [BlockEditorArea]: the component as a state machine: a configuration
      is the world it reads, its hook state and its last render (the
      values it computes and the JSX tree [view] of lines 85-135, with the
      callbacks it binds); [mount] and [handle] (a store or props update, a
      checkbox click, a save click, or [EvFire]: calling whichever callback
      the rendered tree holds at an element's prop) run the render and the
      effects the way React does (an effect runs on mount and when its
      dependency changed);
      [reachable] configurations; React's update loop [settle] (re-render
      and re-commit after a state update, with fuel), which ends within two
      commits with the result of the single [commit] that [mount] and
      [handle] use (C32).  Theorems: the effect of lines 73-75
      throws when the menu is not loaded (C5, C23, C24); the rendered tree
      and the callbacks bound in it (C20); the saved menu agrees with the
      checkbox (C12) and two clicks restore it (C22); outputs of updates
      (C19); totality of the other events (C21) and of any sequence of
      events whose updates come with their menu loaded (C36); the
      checkbox ignores store updates under the same menu id (C25).

    ** Choices

    - Numbers are integers ([Z]): ids are integers or strings; their
      decimal numeral is exact below 10^21.
    - Fuel only where the program loops without a structural bound:
      React's update loop [settle] takes a number of commits, and two are
      enough for every world and hook state (C32), because after one commit
      every effect dependency equals the world's.  Every other function is
      structurally recursive over the lists it folds; the store and the
      component are step functions, and sequences of steps are lists of
      actions or events.
    - Objects passed in by callers are well formed ([wf]); the theorems
      carry this as a hypothesis ([action_wf], [world_wf], [op_wf]).

    ** What the map names

    The manifest maps the definitions that translate code of the
    repository: the reducer, [combineReducers]'s slice, the hook, the
    component and its JSX, the computed key and the spread of
    [reducer.js], and the action creators of [actions.js] (outside [src/],
    modelled from the spec).  The semantics the code relies on but does
    not contain (ECMAScript objects and key order, lodash's [invert],
    React's elements and update loop, the store of [@wordpress/data]) and
    the spec's abstract contract are definitions of the development that
    the claims use, not models of the repository's code.

    ** Not modelled

    - What the block-editor widgets and [Card] components render and do:
      library code; they appear in [view] as elements with the props the
      panel passes.  [__] (translation): a translated text is kept as the
      text it translates.
    - [DeleteMenuButton]'s own behaviour (line 132): its source is not
      among the files; [view] passes it [menuId] and [onDelete], and an
      [EvFire] on its [onDelete] calls [onDeleteMenu].
    - The memoisation of [useSelect] and [__unstableUseDispatchWithMap]
      (their dependency arrays); the hook is modelled as the values it
      computes.
    - The asynchronous resolution of [getMenu] and of [saveMenu]: the world
      changes through [EvUpdate] events.
*)

From stdpp Require Export base list strings pretty sorting gmap.
From Stdlib Require Export Ascii.
From Stdlib Require Export ZArith Lia.

(** ** Shared notation scope *)

Declare Scope js_scope.
Delimit Scope js_scope with js.

(** ** Errors and the error monad

    The modelled JavaScript throws [TypeError]s (reading a property of
    [undefined]); a computation that may throw returns a [result]. *)

Inductive js_error :=
  | TypeError (message : string).

Inductive result (A : Type) : Type :=
  | Ok (a : A)
  | Throw (e : js_error).
Arguments Ok {A} a.
Arguments Throw {A} e.

#[export] Instance result_ret : MRet result := λ A a, Ok a.
#[export] Instance result_bind : MBind result :=
  λ A B f m, match m with Ok a => f a | Throw e => Throw e end.
#[export] Instance result_fmap : FMap result :=
  λ A B f m, match m with Ok a => Ok (f a) | Throw e => Throw e end.

Definition is_ok {A} (r : result A) : bool :=
  match r with Ok _ => true | Throw _ => false end.

Notation "'throw!' e" := (Throw e) (at level 10, e at level 9) : js_scope.

Create HintDb js discriminated.
Create Rewrite HintDb js_rw.

(** ** The error monad: laws used by the components *)

Lemma bind_Ok_inv {A B} (m : result A) (f : A → result B) b :
  (m ≫= f) = Ok b → ∃ a, m = Ok a ∧ f a = Ok b.
Proof. destruct m; simpl; [eauto | discriminate]. Qed.

Lemma bind_ret {A B} (a : A) (f : A → result B) : (mret a ≫= f) = f a.
Proof. reflexivity. Qed.

Lemma bind_Throw {A B} e (f : A → result B) : (Throw e ≫= f) = Throw e.
Proof. reflexivity. Qed.

#[export] Hint Rewrite @bind_ret @bind_Throw : js_rw.

(** ** Tactics *)

(** [invc H]: invert a hypothesis and substitute. *)
Ltac invc H := inversion H; subst; clear H.

(** [result_simpl]: decompose binds and equalities of results in the
    hypotheses. *)
Ltac result_simpl :=
  repeat match goal with
  | H : Ok _ = Ok _ |- _ => injection H as H
  | H : Ok _ = Throw _ |- _ => discriminate H
  | H : Throw _ = Ok _ |- _ => discriminate H
  | H : (_ ≫= _) = Ok _ |- _ =>
      let a := fresh "a" in let Ha := fresh "Ha" in
      apply bind_Ok_inv in H as (a & Ha & H)
  end.

(** ** Last matching element of a list

    Several operations of the program iterate over a list and let the last
    write win; [find_last] names the element that wins. *)

Fixpoint find_last {A} (p : A → bool) (l : list A) : option A :=
  match l with
  | [] => None
  | x :: l' =>
      match find_last p l' with
      | Some y => Some y
      | None => if p x then Some x else None
      end
  end.

Section find_last.
Context {A : Type} (p : A → bool).

Lemma find_last_app l1 l2 :
  find_last p (l1 ++ l2) =
  match find_last p l2 with Some y => Some y | None => find_last p l1 end.
Proof.
  induction l1 as [|x l1 IH]; simpl; [by destruct (find_last p l2)|].
  rewrite IH. by destruct (find_last p l2).
Qed.

Lemma find_last_snoc l x :
  find_last p (l ++ [x]) = if p x then Some x else find_last p l.
Proof. rewrite find_last_app. simpl. by destruct (p x). Qed.

Lemma find_last_Some l y : find_last p l = Some y → y ∈ l ∧ p y = true.
Proof.
  induction l as [|x l IH]; simpl; [discriminate|].
  destruct (find_last p l) as [z|] eqn:E.
  - intros [= <-]. destruct (IH eq_refl). split; [by right|done].
  - destruct (p x) eqn:Px; [intros [= <-]; split; [left|done]|discriminate].
Qed.

Lemma find_last_None l : find_last p l = None ↔ Forall (λ x, p x = false) l.
Proof.
  induction l as [|x l IH]; simpl; [split; auto|].
  rewrite Forall_cons. destruct (find_last p l); [naive_solver|].
  destruct (p x); naive_solver.
Qed.

(** With a single element satisfying [p], that element wins. *)
Lemma find_last_unique l y :
  y ∈ l → p y = true → (∀ z, z ∈ l → p z = true → z = y) →
  find_last p l = Some y.
Proof.
  intros Hy Py Huniq. destruct (find_last p l) as [z|] eqn:E.
  - apply find_last_Some in E as [Hz Pz]. f_equal. by apply Huniq.
  - apply find_last_None in E. rewrite Forall_forall in E.
    rewrite (E y Hy) in Py. discriminate.
Qed.
(** An element followed by another that satisfies [p] does not win. *)
Lemma find_last_not_before l1 x l2 y :
  y ∈ l2 → p y = true → x ∉ l2 → find_last p (l1 ++ x :: l2) ≠ Some x.
Proof.
  intros Hy Py Hx. rewrite find_last_app. simpl.
  destruct (find_last p l2) as [z|] eqn:E.
  - apply find_last_Some in E as [Hz _]. intros [= <-]. done.
  - apply find_last_None in E. rewrite Forall_forall in E. by rewrite (E y Hy) in Py.
Qed.
End find_last.

(** The last element of [omap g l] satisfying [q] comes from the last
    element of [l] that [g] maps to one. *)
Lemma find_last_omap {A B} (g : A → option B) (q : B → bool) l :
  find_last q (omap g l) =
  find_last (λ x, match g x with Some y => q y | None => false end) l ≫= g.
Proof.
  unfold omap. induction l as [|x l IH]; [done|]. cbn [list_omap find_last].
  destruct (g x) as [y|] eqn:Hg; cbn [find_last]; rewrite IH;
    destruct (find_last _ l) as [z|] eqn:E; simpl; rewrite ?Hg; try done.
  - apply find_last_Some in E as [_ Pz]. by destruct (g z).
  - by destruct (q y); simpl; rewrite ?Hg.
Qed.

Lemma find_last_ext {A} (p q : A → bool) l :
  (∀ x, x ∈ l → p x = q x) → find_last p l = find_last q l.
Proof.
  induction l as [|x l IH]; intros Hpq; simpl; [done|].
  rewrite IH by (intros; apply Hpq; by right).
  by rewrite (Hpq x) by left.
Qed.

(** ** Association lists with unique keys

    A list of pairs read from the front and updated in place, a new key
    going last: the shape of an object's named properties. *)

Fixpoint assoc_get `{EqDecision K} {V} (k : K) (l : list (K * V)) : option V :=
  match l with
  | [] => None
  | (k', v) :: l' => if decide (k = k') then Some v else assoc_get k l'
  end.

Fixpoint assoc_set `{EqDecision K} {V} (k : K) (v : V) (l : list (K * V)) : list (K * V) :=
  match l with
  | [] => [(k, v)]
  | (k', w) :: l' => if decide (k = k') then (k, v) :: l' else (k', w) :: assoc_set k v l'
  end.

Section assoc.
Context `{EqDecision K} {V : Type}.
Implicit Types (l : list (K * V)) (k : K) (v : V).

Lemma assoc_get_set l k k' v :
  assoc_get k' (assoc_set k v l) = if decide (k' = k) then Some v else assoc_get k' l.
Proof.
  induction l as [|[k2 w] l IH]; simpl; [done|].
  repeat (case_decide; simplify_eq/=); done.
Qed.

Lemma assoc_get_set_eq l k v : assoc_get k (assoc_set k v l) = Some v.
Proof. rewrite assoc_get_set. by case_decide. Qed.

Lemma assoc_get_set_ne l k k' v : k ≠ k' → assoc_get k' (assoc_set k v l) = assoc_get k' l.
Proof. intros. rewrite assoc_get_set. by case_decide; simplify_eq. Qed.

Lemma assoc_set_keys l k v :
  map fst (assoc_set k v l) = if decide (k ∈ map fst l) then map fst l else map fst l ++ [k].
Proof.
  induction l as [|[k2 w] l IH]; simpl; [done|].
  destruct (decide (k = k2)) as [->|Hk]; simpl.
  - by rewrite decide_True by set_solver.
  - rewrite IH. destruct (decide (k ∈ map fst l)), (decide (k ∈ k2 :: map fst l));
      simpl; [done|set_solver..|done].
Qed.

Lemma assoc_set_fresh l k v : k ∉ map fst l → assoc_set k v l = l ++ [(k, v)].
Proof.
  induction l as [|[k2 w] l IH]; simpl; intros Hk; [done|].
  rewrite decide_False by set_solver. rewrite IH by set_solver. done.
Qed.

Lemma NoDup_assoc_set l k v : NoDup (map fst l) → NoDup (map fst (assoc_set k v l)).
Proof.
  rewrite assoc_set_keys. case_decide; [done|].
  intros. apply NoDup_app. split_and!; [done| |apply NoDup_singleton]. set_solver.
Qed.

Lemma assoc_get_Some l k v : assoc_get k l = Some v → (k, v) ∈ l.
Proof.
  induction l as [|[k2 w] l IH]; simpl; [discriminate|].
  case_decide; [intros [= <-]; subst; left|intros; right; auto].
Qed.

Lemma assoc_get_elem_of l k v : NoDup (map fst l) → (k, v) ∈ l → assoc_get k l = Some v.
Proof.
  induction l as [|[k2 w] l IH]; simpl; [set_solver|].
  rewrite NoDup_cons. intros [Hk2 Hnd] Hin. apply elem_of_cons in Hin as [Heq|Hin].
  - simplify_eq. by rewrite decide_True.
  - rewrite decide_False; [by apply IH|].
    intros ->. apply Hk2. apply list_elem_of_fmap. by exists (k2, v).
Qed.

Lemma assoc_set_id l k v : assoc_get k l = Some v → assoc_set k v l = l.
Proof.
  induction l as [|[k2 w] l IH]; simpl; [discriminate|].
  case_decide; [intros [= ->]; by subst|intros; by rewrite IH].
Qed.

Lemma assoc_get_None l k : assoc_get k l = None ↔ k ∉ map fst l.
Proof.
  induction l as [|[k2 w] l IH]; simpl; [set_solver|].
  case_decide; subst; [set_solver|]. rewrite IH. set_solver.
Qed.
End assoc.

#[export] Hint Resolve assoc_get_set_eq NoDup_assoc_set : js.

(** Two elements of a list with the same image under an injective-on-the-list
    map are the same element. *)
Lemma NoDup_map_eq {A B} (f : A → B) (l : list A) x y :
  NoDup (map f l) → x ∈ l → y ∈ l → f x = f y → x = y.
Proof.
  induction l as [|z l IH]; simpl; [set_solver|].
  rewrite NoDup_cons. intros [Hz Hnd] Hx Hy Hf.
  apply elem_of_cons in Hx as [->|Hx], Hy as [->|Hy]; [done| | |by apply IH].
  - exfalso. apply Hz. rewrite Hf. apply list_elem_of_fmap. eauto.
  - exfalso. apply Hz. rewrite <-Hf. apply list_elem_of_fmap. eauto.
Qed.

(** Discharge a decidable proposition about closed terms by evaluation. *)
Ltac decide_closed := apply (bool_decide_eq_true_1 _); vm_compute; reflexivity.
