(* ===== verification/PropertyKey.v ===== *)
(** * JavaScript values, property keys and array indices

    The primitive values the modelled code stores in objects, the
    ECMAScript [ToPropertyKey] and [ToBoolean] conversions applied to them,
    and the classification of a property key as an "array index" (a
    canonical decimal numeral below 2^32 - 1), which decides the order in
    which an ordinary object enumerates its keys.  Numbers are integers
    here: the ids the program handles are integers or strings. *)

From S2P Require Import Prelude.

Module PropertyKey.

(** ** Values *)

Inductive js_value :=
  | JUndefined
  | JNull
  | JBool (b : bool)
  | JNumber (n : Z)
  | JString (s : string).

#[export] Instance js_value_eq_dec : EqDecision js_value.
Proof. solve_decision. Defined.

(** ECMAScript [ToString] restricted to primitives, used by [ToPropertyKey]:
    the key [o[v]] reads or writes.  An integer prints as its decimal
    numeral (exact for the magnitudes below 10^21 that ids have). *)
Definition to_property_key (v : js_value) : string :=
  match v with
  | JUndefined => "undefined"
  | JNull => "null"
  | JBool true => "true"
  | JBool false => "false"
  | JNumber n => pretty n
  | JString s => s
  end.

(** ECMAScript [ToBoolean]: the truthiness tested by [!], [&&] and [if]. *)
Definition to_boolean (v : js_value) : bool :=
  match v with
  | JUndefined | JNull => false
  | JBool b => b
  | JNumber n => negb (Z.eqb n 0)
  | JString s => negb (String.eqb s "")
  end.

(** ** Decimal numerals *)

(** The value of a decimal digit, from its character code (48 is "0"). *)
Definition digit_value (c : ascii) : option N :=
  let code := N_of_ascii c in
  if (48 <=? code)%N && (code <=? 57)%N then Some (code - 48)%N else None.

Fixpoint parse_digits_go (s : string) (acc : N) : option N :=
  match s with
  | EmptyString => Some acc
  | String c s' => d ← digit_value c; parse_digits_go s' (10 * acc + d)%N
  end.

(** [ToNumber] on a string of decimal digits ([""] is [0], as in
    JavaScript); [None] for a string with another character, which is never
    an array index. *)
Definition parse_digits (s : string) : option N := parse_digits_go s 0.

(** 2^32 - 1: array indices are the integers strictly below it. *)
Definition array_index_bound : N := 4294967295%N.

(** An array index is a string [P] with [ToString(ToUint32(P)) = P] and
    [ToUint32(P) <> 2^32 - 1]. *)
Definition array_index (s : string) : option N :=
  n ← parse_digits s;
  if (n <? array_index_bound)%N && bool_decide (pretty n = s) then Some n else None.

Definition is_array_index (s : string) : bool := bool_decide (is_Some (array_index s)).

(** ** Round trip between numerals and their values *)

Lemma digit_value_pretty_char x : (x < 10)%N → digit_value (pretty_N_char x) = Some x.
Proof.
  intros Hx.
  assert (x = 0 ∨ x = 1 ∨ x = 2 ∨ x = 3 ∨ x = 4 ∨ x = 5 ∨ x = 6 ∨ x = 7 ∨ x = 8 ∨ x = 9)%N
    as Hcases by lia.
  by repeat destruct Hcases as [->|Hcases]; [..|subst].
Qed.

Lemma parse_digits_go_pretty x s :
  parse_digits_go (pretty_N_go x s) 0 = parse_digits_go s x.
Proof.
  revert s. induction (N.lt_wf_0 x) as [x _ IH]; intros s.
  destruct (decide (x = 0)%N) as [->|Hx]; [by rewrite pretty_N_go_0|].
  rewrite pretty_N_go_step by lia.
  rewrite IH by (apply N.div_lt; lia). simpl.
  rewrite digit_value_pretty_char by (apply N.mod_lt; lia). simpl.
  by rewrite <-N.div_mod by lia.
Qed.

Lemma parse_digits_pretty n : parse_digits (pretty n) = Some n.
Proof.
  unfold parse_digits, pretty, pretty_N. case_decide as Hn; [by subst|].
  by rewrite parse_digits_go_pretty.
Qed.

#[export] Hint Rewrite parse_digits_pretty : js_rw.

Lemma array_index_Some s n :
  array_index s = Some n → pretty n = s ∧ (n < array_index_bound)%N.
Proof.
  unfold array_index. destruct (parse_digits s) as [m|]; simpl; [|discriminate].
  destruct (N.ltb_spec m array_index_bound), (bool_decide_reflect (pretty m = s));
    simpl; intros; simplify_eq; auto.
Qed.

(** Round trip: the numeral of an index below 2^32 - 1 is classified as
    that index, and an array index is the numeral of its value. *)
Lemma array_index_pretty n :
  (n < array_index_bound)%N → array_index (pretty n) = Some n.
Proof.
  intros Hn. unfold array_index. rewrite parse_digits_pretty. simpl.
  destruct (N.ltb_spec n array_index_bound); [|lia].
  by rewrite bool_decide_eq_true_2.
Qed.

Lemma array_index_out_of_range n :
  (array_index_bound <= n)%N → array_index (pretty n) = None.
Proof.
  intros Hn. destruct (array_index (pretty n)) as [m|] eqn:E; [|done].
  apply array_index_Some in E as [Hm Hlt].
  apply (inj pretty) in Hm. lia.
Qed.

Lemma array_index_inj s1 s2 n :
  array_index s1 = Some n → array_index s2 = Some n → s1 = s2.
Proof.
  intros [<- _]%array_index_Some [<- _]%array_index_Some. done.
Qed.

Lemma is_array_index_spec s : is_array_index s = true ↔ ∃ n, array_index s = Some n.
Proof. unfold is_array_index. rewrite bool_decide_eq_true. done. Qed.

End PropertyKey.
