(* ===== verification/ReactElement.v ===== *)
(** * React elements as data

    What a function component returns: JSX compiles to nested
    [createElement(type, props, ...children)] calls, a tree whose nodes
    carry a type (a host tag such as ["div"] or a component such as
    ["Button"]), a props object and a list of children.  A child that is
    [false] ([cond && <X/>]) renders nothing, so it is left out of the list.
    Translated strings ([__( text )]) are kept as the text they translate:
    the translation itself is not modelled.

    The props that hold callbacks carry a value of a type [H] the component
    chooses, a description of the closure the render bound; the component
    reads them back when an event fires on the element.  [find_type] and
    [prop_at] are how a test (or the browser) finds an element and one of
    its props. *)

From S2P Require Import Prelude PropertyKey.

Module ReactElement.
Import PropertyKey.

Section Element.
Context {H : Type}.

Inductive prop_value :=
  | PString (s : string)          (** a string literal or computed class name *)
  | PBool (b : bool)              (** a boolean prop written bare: [isPrimary] *)
  | PValue (v : js_value)         (** a JavaScript value: [checked={ autoAddPages }] *)
  | PText (s : string)            (** [__( s )] *)
  | PHandler (h : H).             (** a callback *)

Inductive element :=
  | Elem (type : string) (props : list (string * prop_value)) (children : list element)
  | Text (s : string).            (** [{ __( s ) }] as a child *)

(** The first element of type [t] in document order (the element itself,
    then its children from left to right). *)
Fixpoint find_type (t : string) (e : element) : option element :=
  match e with
  | Text _ => None
  | Elem t' _ cs =>
      if String.eqb t t' then Some e
      else (fix go (cs : list element) : option element :=
              match cs with
              | [] => None
              | c :: cs' => match find_type t c with Some x => Some x | None => go cs' end
              end) cs
  end.

Definition props_of (e : element) : list (string * prop_value) :=
  match e with Elem _ ps _ => ps | Text _ => [] end.

(** [element.props[name]] of the first element of type [t]. *)
Definition prop_at (t name : string) (e : element) : option prop_value :=
  find_type t e ≫= λ x, assoc_get name (props_of x).

(** The element is in the tree. *)
Definition has_type (t : string) (e : element) : bool := bool_decide (is_Some (find_type t e)).

End Element.

Arguments prop_value : clear implicits.
Arguments element : clear implicits.

End ReactElement.
