(* ===== verification/JsObject.v ===== *)
(** * Ordinary JavaScript objects used as dictionaries

    An ordinary object keeps its array-index keys apart from its other
    string keys: [OrdinaryOwnPropertyKeys] lists the array indices in
    ascending numeric order, then the other keys in creation order.  The
    model stores the two parts the way engines do, [elements] (sorted by
    index) and [props] (in creation order), so that an object equal in the
    model is an object no program can tell apart.  The operations are the
    ones the reducer and the hooks use: property read [o[k]], property
    write [o[k] = v] (also the computed key of a literal [{ [k]: v }]),
    [Object.keys]/[Object.values], and the spread [{ ...o }]. *)

From S2P Require Import Prelude PropertyKey.

Module JsObject.
Import PropertyKey.

Section Obj.
Context {V : Type}.

Record obj := mk_obj {
  elements : list (N * V);       (** array-index keys, ascending *)
  props : list (string * V)      (** other keys, in creation order *)
}.

Definition empty_obj : obj := mk_obj [] [].

(** ** Reading a property *)

(** Both parts are read front to back (keys are unique in each). *)

(** [o[k]], [None] standing for [undefined]. *)
Definition obj_get (k : string) (o : obj) : option V :=
  match array_index k with
  | Some n => assoc_get n (elements o)
  | None => assoc_get k (props o)
  end.

(** ** Writing a property

    An existing key keeps its place; a new index is inserted in order; a
    new non-index key goes last. *)

Fixpoint elem_set (n : N) (v : V) (l : list (N * V)) : list (N * V) :=
  match l with
  | [] => [(n, v)]
  | (m, w) :: l' =>
      match N.compare n m with
      | Lt => (n, v) :: l
      | Eq => (n, v) :: l'
      | Gt => (m, w) :: elem_set n v l'
      end
  end.

(** [o[k] = v] on a data property. *)
Definition obj_set (k : string) (v : V) (o : obj) : obj :=
  match array_index k with
  | Some n => mk_obj (elem_set n v (elements o)) (props o)
  | None => mk_obj (elements o) (assoc_set k v (props o))
  end.

(** ** Enumeration *)

(** The own enumerable properties in [OrdinaryOwnPropertyKeys] order. *)
Definition own_entries (o : obj) : list (string * V) :=
  map (λ '(n, v), (pretty n, v)) (elements o) ++ props o.

(** [Object.keys] and [Object.values]. *)
Definition own_keys (o : obj) : list string := map fst (own_entries o).
Definition obj_values (o : obj) : list V := map snd (own_entries o).

(** ** Copying: the spread [{ ...src }] and [Object.assign] *)

(** Write the entries one after the other into [target]. *)
Definition assign_entries (es : list (string * V)) (target : obj) : obj :=
  fold_left (λ acc '(k, v), obj_set k v acc) es target.

(** [{ ...src }] copies the own enumerable properties of [src] in order;
    spreading [undefined] copies nothing. *)
Definition spread_entries (src : option obj) : list (string * V) :=
  match src with Some o => own_entries o | None => [] end.

(** [{ ...src, [k]: v }]. *)
Definition spread_with (src : option obj) (k : string) (v : V) : obj :=
  obj_set k v (assign_entries (spread_entries src) empty_obj).

(** ** Well-formedness

    Indices ascending and below 2^32 - 1, the other keys unique and not
    indices. *)
Definition wf (o : obj) : Prop :=
  StronglySorted N.lt (map fst (elements o)) ∧
  Forall (λ n, n < array_index_bound)%N (map fst (elements o)) ∧
  NoDup (map fst (props o)) ∧
  Forall (λ k, array_index k = None) (map fst (props o)).

End Obj.

Arguments obj : clear implicits.

(** ** Reading after writing *)

Section Lemmas.
Context {V : Type}.
Implicit Types (o : obj V) (k : string) (v : V).

Lemma elem_get_set l n n' v :
  assoc_get n' (elem_set n v l) = if decide (n' = n) then Some v else assoc_get n' l.
Proof.
  induction l as [|[m w] l IH]; simpl; [done|].
  destruct (N.compare_spec n m) as [->|Hlt|Hgt]; simpl.
  - by repeat case_decide.
  - by repeat case_decide.
  - rewrite IH. repeat case_decide; subst; done || lia.
Qed.

Lemma obj_get_set o k k' v :
  obj_get k' (obj_set k v o) = if decide (k' = k) then Some v else obj_get k' o.
Proof.
  unfold obj_get, obj_set.
  destruct (array_index k) as [n|] eqn:Ek, (array_index k') as [n'|] eqn:Ek'; simpl;
    rewrite ?Ek'; try rewrite elem_get_set; try rewrite assoc_get_set;
    repeat case_decide; simplify_eq; try done.
  all: by pose proof (array_index_inj _ _ _ Ek' Ek).
Qed.

Lemma obj_get_set_eq o k v : obj_get k (obj_set k v o) = Some v.
Proof. rewrite obj_get_set. by case_decide. Qed.

Lemma obj_get_set_ne o k k' v : k ≠ k' → obj_get k' (obj_set k v o) = obj_get k' o.
Proof. intros. rewrite obj_get_set. by case_decide; simplify_eq. Qed.

Lemma obj_get_empty k : obj_get k (@empty_obj V) = None.
Proof. unfold obj_get. by destruct (array_index k). Qed.

(** Writing a list of entries: the last entry with the key wins. *)
Lemma obj_get_assign_entries es t k :
  obj_get k (assign_entries es t) =
  match find_last (λ e : string * V, bool_decide (e.1 = k)) es with
  | Some e => Some e.2
  | None => obj_get k t
  end.
Proof.
  unfold assign_entries.
  revert t. induction es as [|[k1 v1] es IH]; intros t; cbn [fold_left find_last]; [done|].
  rewrite IH.
  destruct (find_last _ es); [done|].
  rewrite obj_get_set. by case_bool_decide; repeat case_decide; simplify_eq.
Qed.


(** ** Well-formedness is preserved *)

Lemma elem_set_keys l n v m :
  m ∈ map fst (elem_set n v l) ↔ m = n ∨ m ∈ map fst l.
Proof.
  induction l as [|[m' w] l IH]; simpl; [set_solver|].
  destruct (N.compare_spec n m'); simpl; rewrite ?elem_of_cons, ?IH; naive_solver.
Qed.

Lemma elem_set_sorted l n v :
  StronglySorted N.lt (map fst l) → StronglySorted N.lt (map fst (elem_set n v l)).
Proof.
  induction l as [|[m w] l IH]; simpl; intros Hs; [repeat constructor|].
  apply StronglySorted_inv in Hs as [Hs Hf].
  destruct (N.compare_spec n m) as [->|Hlt|Hgt]; simpl.
  - by constructor.
  - constructor; [by constructor|]. constructor; [lia|].
    eapply Forall_impl; [exact Hf|]. simpl. lia.
  - constructor; [by apply IH|]. apply Forall_forall. intros x Hx.
    apply elem_set_keys in Hx as [->|Hx]; [lia|]. by eapply Forall_forall in Hf.
Qed.

Lemma elem_set_id (l : list (N * V)) n v :
  StronglySorted N.lt (map fst l) → assoc_get n l = Some v → elem_set n v l = l.
Proof.
  induction l as [|[m w] l IH]; simpl; [discriminate|].
  intros [Hs Hf]%StronglySorted_inv Hget.
  destruct (N.compare_spec n m) as [->|Hlt|Hgt].
  - rewrite decide_True in Hget by done. by injection Hget as ->.
  - rewrite decide_False in Hget by lia. exfalso.
    apply assoc_get_Some in Hget.
    assert (n ∈ map fst l) as Hn by (apply list_elem_of_fmap; by exists (n, v)).
    eapply Forall_forall in Hf; [|exact Hn]. lia.
  - rewrite decide_False in Hget by lia. by rewrite IH.
Qed.

(** Writing the value a property already has changes nothing. *)
Lemma obj_set_id o k v : wf o → obj_get k o = Some v → obj_set k v o = o.
Proof.
  intros (Hs & _) Hget. destruct o as [es ps]. unfold obj_get, obj_set in *. simpl in *.
  destruct (array_index k).
  - by rewrite elem_set_id.
  - by rewrite assoc_set_id.
Qed.

Lemma wf_empty : wf (@empty_obj V).
Proof. repeat split; constructor. Qed.

Lemma wf_set o k v : wf o → wf (obj_set k v o).
Proof.
  intros (Hs & Hb & Hnd & Hni). unfold obj_set.
  destruct (array_index k) as [n|] eqn:Ek; split_and!; simpl; try done.
  - by apply elem_set_sorted.
  - apply Forall_forall. intros m [->|Hm]%elem_set_keys.
    + by apply array_index_Some in Ek as [_ ?].
    + by eapply Forall_forall in Hb.
  - by apply NoDup_assoc_set.
  - rewrite assoc_set_keys. case_decide; [done|].
    apply Forall_app. by split; [|constructor].
Qed.

Lemma wf_assign_entries es o : wf o → wf (assign_entries es o).
Proof.
  unfold assign_entries. revert o.
  induction es as [|[k v] es IH]; intros o Ho; simpl; [done|]. apply IH, wf_set, Ho.
Qed.

(** ** Enumeration agrees with reading *)

Lemma StronglySorted_NoDup (l : list N) : StronglySorted N.lt l → NoDup l.
Proof.
  induction 1 as [|x l _ IH Hf]; constructor; [|done].
  intros Hx. eapply Forall_forall in Hf; [|exact Hx]. lia.
Qed.

Lemma own_entries_get o k v :
  wf o → (k, v) ∈ own_entries o ↔ obj_get k o = Some v.
Proof.
  intros (Hs & Hb & Hnd & Hni). unfold own_entries, obj_get.
  rewrite elem_of_app. split.
  - intros [Hin|Hin].
    + apply list_elem_of_fmap in Hin as [[n w] [Heq Hin]]. simpl in Heq.
      injection Heq as -> ->.
      assert (n ∈ map fst (elements o)) as Hn by (apply list_elem_of_fmap; by exists (n, w)).
      eapply Forall_forall in Hb; [|exact Hn].
      rewrite array_index_pretty by done.
      by apply assoc_get_elem_of; [apply StronglySorted_NoDup|].
    + assert (k ∈ map fst (props o)) as Hk by (apply list_elem_of_fmap; by exists (k, v)).
      eapply Forall_forall in Hni; [|exact Hk]. rewrite Hni.
      by apply assoc_get_elem_of.
  - destruct (array_index k) as [n|] eqn:Ek; intros Hget%assoc_get_Some.
    + left. apply list_elem_of_fmap. exists (n, v). split; [|done].
      by apply array_index_Some in Ek as [-> _].
    + by right.
Qed.

Lemma own_element_keys (l : list (N * V)) :
  map fst (map (λ '(n, v), (pretty n, v)) l) = map pretty (map fst l).
Proof. induction l as [|[n w] l IH]; simpl; congruence. Qed.

Lemma own_keys_NoDup o : wf o → NoDup (own_keys o).
Proof.
  intros (Hs & Hb & Hnd & Hni). unfold own_keys, own_entries.
  rewrite map_app, own_element_keys. apply NoDup_app. split_and!.
  - apply NoDup_fmap_2; [apply _|]. by apply StronglySorted_NoDup.
  - intros k Hk Hk'. apply list_elem_of_fmap in Hk as [n [-> Hn]].
    eapply Forall_forall in Hni; [|exact Hk'].
    eapply Forall_forall in Hb; [|exact Hn].
    simpl in Hni. by rewrite array_index_pretty in Hni.
  - done.
Qed.

Lemma own_keys_get o k : wf o → k ∈ own_keys o ↔ is_Some (obj_get k o).
Proof.
  intros Ho. unfold own_keys. rewrite list_elem_of_fmap. split.
  - intros [[k' v] [-> Hin]]. apply own_entries_get in Hin; [|done]. by exists v.
  - intros [v Hv]. exists (k, v). split; [done|]. by apply own_entries_get.
Qed.

Lemma own_entries_functional o k v1 v2 :
  wf o → (k, v1) ∈ own_entries o → (k, v2) ∈ own_entries o → v1 = v2.
Proof. intros Ho H1%own_entries_get H2%own_entries_get; congruence. Qed.

(** A well-formed object reads like the finite map of its entries. *)
Lemma obj_get_to_gmap o k :
  wf o → obj_get k o = (list_to_map (own_entries o) : gmap string V) !! k.
Proof.
  intros Ho. destruct (obj_get k o) as [v|] eqn:Hk.
  - symmetry. apply elem_of_list_to_map; [by apply own_keys_NoDup|]. by apply own_entries_get.
  - symmetry. apply not_elem_of_list_to_map_1.
    change (k ∉ own_keys o). rewrite own_keys_get by done. rewrite Hk. by intros [].
Qed.

(** In a strictly sorted list, what comes before [x] has a smaller key. *)
Lemma sorted_before_lt (l1 l2 : list (N * V)) x y :
  StronglySorted N.lt (map fst (l1 ++ x :: l2)) → y ∈ l1 → (y.1 < x.1)%N.
Proof.
  induction l1 as [|z l1 IH]; simpl; intros Hs Hy; [by inversion Hy|].
  apply StronglySorted_inv in Hs as [Hs Hf]. apply elem_of_cons in Hy as [->|Hy]; [|by apply IH].
  eapply Forall_forall; [exact Hf|]. apply list_elem_of_fmap. exists x.
  split; [done|]. apply elem_of_app. right. by left.
Qed.

(** [OrdinaryOwnPropertyKeys]: the property of an index key [km] is
    enumerated before that of every larger index key and of every key that
    is not an index. *)
Lemma own_entries_split_index o km m v k w :
  wf o → array_index km = Some m → obj_get km o = Some v → obj_get k o = Some w →
  match array_index k with Some n => (m < n)%N | None => True end →
  ∃ l1 l2, own_entries o = l1 ++ (km, v) :: l2 ∧ (k, w) ∈ l2.
Proof.
  intros (Hs & _) Hm Hv Hw Hk. unfold obj_get in Hv, Hw. rewrite Hm in Hv.
  apply assoc_get_Some, list_elem_of_split in Hv as (e1 & e2 & He).
  apply array_index_Some in Hm as [<- _].
  exists (map (λ '(n, v), (pretty n, v)) e1), (map (λ '(n, v), (pretty n, v)) e2 ++ props o).
  unfold own_entries. rewrite He, map_app, <-app_assoc. split; [done|].
  destruct (array_index k) as [n|] eqn:Ek.
  - apply assoc_get_Some in Hw. rewrite He in Hw, Hs.
    apply elem_of_app in Hw as [Hin|[[= -> _]|Hin]%elem_of_cons].
    + pose proof (sorted_before_lt _ _ _ _ Hs Hin). simpl in *. lia.
    + lia.
    + apply elem_of_app. left. apply list_elem_of_fmap. exists (n, w).
      split; [|done]. by apply array_index_Some in Ek as [-> _].
  - apply elem_of_app. right. by apply assoc_get_Some.
Qed.

(** Copying the properties of [o] over [t] ([{ ...t, ...o }]): a read sees
    [o] first, then [t]. *)
Lemma obj_get_assign_own o t k :
  wf o → obj_get k (assign_entries (own_entries o) t) =
         match obj_get k o with Some v => Some v | None => obj_get k t end.
Proof.
  intros Ho. rewrite obj_get_assign_entries.
  destruct (obj_get k o) as [v|] eqn:Hk.
  - rewrite (find_last_unique _ _ (k, v)); [done|by apply own_entries_get|by rewrite bool_decide_eq_true|].
    intros [k2 v2] Hin%own_entries_get Hp%bool_decide_eq_true; [|done]. simpl in Hp. subst. congruence.
  - destruct (find_last _ (own_entries o)) as [[k2 v2]|] eqn:E; [|done].
    apply find_last_Some in E as [Hin%own_entries_get Hp%bool_decide_eq_true]; [|done].
    simpl in Hp. subst. congruence.
Qed.

(** ** Copying an object reproduces it *)

Lemma assign_entries_app (es1 es2 : list (string * V)) (t : obj V) :
  assign_entries (es1 ++ es2) t = assign_entries es2 (assign_entries es1 t).
Proof. apply fold_left_app. Qed.

Lemma elem_set_append (l : list (N * V)) n v :
  Forall (λ m, m < n)%N (map fst l) → elem_set n v l = l ++ [(n, v)].
Proof.
  induction l as [|[m w] l IH]; simpl; intros Hl; [done|].
  apply Forall_cons in Hl as [Hm Hl].
  destruct (N.compare_spec n m); [lia|lia|]. by rewrite IH.
Qed.

Lemma assign_elements (acc es : list (N * V)) (ps : list (string * V)) :
  StronglySorted N.lt (map fst (acc ++ es)) →
  Forall (λ n, n < array_index_bound)%N (map fst es) →
  assign_entries (map (λ '(n, v), (pretty n, v)) es) (mk_obj acc ps) = mk_obj (acc ++ es) ps.
Proof.
  revert acc. induction es as [|[n v] es IH]; intros acc Hs Hb; simpl.
  { by rewrite app_nil_r. }
  apply Forall_cons in Hb as [Hn Hb]. simpl in Hn.
  unfold assign_entries in *. simpl. unfold obj_set at 2. rewrite array_index_pretty by done.
  simpl. rewrite elem_set_append.
  - replace (acc ++ (n, v) :: es) with ((acc ++ [(n, v)]) ++ es) by (by rewrite <-app_assoc).
    apply IH; [|done]. by rewrite <-app_assoc.
  - apply Forall_forall. intros m Hm. rewrite map_app in Hs.
    eapply (StronglySorted_app_1_elem_of _ _ _ m n Hs Hm). simpl. by left.
Qed.

Lemma assign_props (acc ps : list (string * V)) (es : list (N * V)) :
  NoDup (map fst (acc ++ ps)) →
  Forall (λ k, array_index k = None) (map fst ps) →
  assign_entries ps (mk_obj es acc) = mk_obj es (acc ++ ps).
Proof.
  revert acc. induction ps as [|[k v] ps IH]; intros acc Hnd Hni; simpl.
  { by rewrite app_nil_r. }
  apply Forall_cons in Hni as [Hk Hni]. simpl in Hk.
  unfold assign_entries in *. simpl. unfold obj_set at 2. rewrite Hk. simpl.
  rewrite assoc_set_fresh.
  - replace (acc ++ (k, v) :: ps) with ((acc ++ [(k, v)]) ++ ps) by (by rewrite <-app_assoc).
    apply IH; [|done]. by rewrite <-app_assoc.
  - rewrite map_app in Hnd. apply NoDup_app in Hnd as (_ & Hdis & _).
    intros Hin. apply (Hdis k Hin). simpl. by left.
Qed.

(** [{ ...o }] is [o] again, property for property and in the same order. *)
Lemma assign_own_entries o : wf o → assign_entries (own_entries o) empty_obj = o.
Proof.
  intros (Hs & Hb & Hnd & Hni). destruct o as [es ps]. unfold own_entries, empty_obj; simpl in *.
  rewrite assign_entries_app, (assign_elements [] es []) by done. simpl.
  by rewrite (assign_props [] ps es) by done.
Qed.

Lemma spread_with_Some o k v : wf o → spread_with (Some o) k v = obj_set k v o.
Proof. intros Ho. unfold spread_with. simpl. by rewrite assign_own_entries. Qed.

Lemma spread_with_None k v : spread_with None k v = obj_set k v (@empty_obj V).
Proof. reflexivity. Qed.

Lemma wf_spread_with (src : option (obj V)) k v : from_option wf True src → wf (spread_with src k v).
Proof.
  destruct src as [o|]; simpl; intros Ho.
  - rewrite spread_with_Some by done. by apply wf_set.
  - apply wf_set, wf_empty.
Qed.

End Lemmas.

#[export] Hint Rewrite @obj_get_set_eq @obj_get_empty : js_rw.

(** ** Objects with the same properties

    Two objects are equivalent when every read gives the same result; the
    order of enumeration may differ.  Reading and writing respect it. *)

#[export] Instance obj_equiv {V} : Equiv (obj V) := λ o1 o2, ∀ k, obj_get k o1 = obj_get k o2.

#[export] Instance obj_equivalence {V} : Equivalence (≡@{obj V}).
Proof. split; repeat intro; congruence. Qed.

#[export] Instance obj_get_proper {V} k : Proper ((≡) ==> (=)) (@obj_get V k).
Proof. intros o1 o2 Ho. apply Ho. Qed.

#[export] Instance obj_set_proper {V} k (v : V) : Proper ((≡) ==> (≡)) (obj_set k v).
Proof. intros o1 o2 Ho k'. rewrite !obj_get_set. case_decide; [done|apply Ho]. Qed.

#[export] Instance assign_entries_proper {V} (es : list (string * V)) :
  Proper ((≡) ==> (≡)) (assign_entries es).
Proof. intros o1 o2 Ho k. rewrite !obj_get_assign_entries. destruct find_last; [done|apply Ho]. Qed.

#[export] Instance wf_dec {V} (o : obj V) : Decision (wf o).
Proof. unfold wf. apply _. Defined.

#[export] Hint Resolve wf_empty wf_set wf_assign_entries wf_spread_with own_keys_NoDup : js.

End JsObject.
