(* ===== verification/KeyOrder.v ===== *)
(** * Property order: the ECMAScript description and the object model

    ECMAScript keeps the properties of an ordinary object in the order they
    were created and enumerates them by [OrdinaryOwnPropertyKeys]: first
    the array-index keys in ascending numeric order, then the other string
    keys in creation order.  [JsObject] stores the two groups apart
    (indices sorted, other keys in creation order).  This file states the
    language's description directly, as one list of properties in creation
    order where a write to an existing key keeps its place, and proves that
    [JsObject] enumerates exactly what that description enumerates. *)

From S2P Require Import Prelude PropertyKey JsObject.

Module KeyOrder.
Import PropertyKey JsObject.

Section Ref.
Context {V : Type}.

(** The description keeps the properties of an object as one list of
    [(key, value)] pairs in creation order. *)

(** [[[Set]]] on a data property: an existing key keeps its place, a new
    key is created last. *)
Definition ref_set (k : string) (v : V) (r : list (string * V)) : list (string * V) := assoc_set k v r.

(** The index part of a property, if its key is an array index. *)
Definition index_entry (e : string * V) : option (N * V) :=
  (λ n, (n, e.2)) <$> array_index e.1.

Definition key_le (a b : N * V) : Prop := (a.1 ≤ b.1)%N.

#[export] Instance key_le_dec : RelDecision key_le.
Proof. intros a b. unfold key_le. apply _. Defined.

(** [OrdinaryOwnPropertyKeys]: the index keys ascending, then the other
    keys in creation order. *)
Definition ref_own_entries (r : list (string * V)) : list (string * V) :=
  map (λ '(n, v), (pretty n, v)) (merge_sort key_le (omap index_entry r))
  ++ filter (λ e, array_index e.1 = None) r.

(** [Object.assign]/spread on the description: the writes in order. *)
Definition ref_assign (es : list (string * V)) (r : list (string * V)) : list (string * V) :=
  fold_left (λ acc '(k, v), ref_set k v acc) es r.

(** [o] is the object whose properties, in creation order, are [r]. *)
Definition represents (o : obj V) (r : list (string * V)) : Prop :=
  wf o ∧ NoDup (map fst r) ∧
  (∀ k, obj_get k o = assoc_get k r) ∧
  props o = filter (λ e, array_index e.1 = None) r.

(** A table that may be [undefined]: [undefined] has no properties. *)
Definition table_represents (t : option (obj V)) (r : list (string * V)) : Prop :=
  match t with Some o => represents o r | None => r = [] end.

End Ref.

Section Lemmas.
Context {V : Type}.
Implicit Types (o : obj V) (r : list (string * V)).

#[local] Instance key_le_total : Total (@key_le V).
Proof. intros a b. unfold key_le. lia. Qed.

#[local] Instance key_le_trans : Transitive (@key_le V).
Proof. intros a b c. unfold key_le. lia. Qed.

Lemma index_entry_Some (e : string * V) n w :
  index_entry e = Some (n, w) ↔ array_index e.1 = Some n ∧ e.2 = w.
Proof.
  unfold index_entry. destruct (array_index e.1); simpl; split; naive_solver.
Qed.

Lemma index_entry_pair k (w : V) : index_entry (k, w) = (λ n, (n, w)) <$> array_index k.
Proof. done. Qed.

(** Reading index [n] of the index part reads the numeral of [n]. *)
Lemma assoc_get_index_entries r n :
  assoc_get n (omap index_entry r) =
  if decide (n < array_index_bound)%N then assoc_get (pretty n) r else None.
Proof.
  unfold omap. induction r as [|[k w] r IH]; simpl; [by case_decide|].
  rewrite (index_entry_pair k w). destruct (array_index k) as [m|] eqn:Ek; simpl.
  - apply array_index_Some in Ek as [<- Hm]. rewrite IH.
    destruct (decide (n = m)) as [->|Hne]; [by rewrite decide_True, decide_True|].
    case_decide; [|done]. by rewrite decide_False by (intros ?%(inj pretty); done).
  - rewrite IH. case_decide as Hn; [|done].
    rewrite decide_False; [done|]. intros <-. by rewrite array_index_pretty in Ek.
Qed.

Lemma NoDup_index_entries r :
  NoDup (map fst r) → NoDup (map fst (omap index_entry r)).
Proof.
  unfold omap. induction r as [|[k w] r IH]; simpl; [constructor|]. rewrite NoDup_cons.
  intros [Hk Hnd]. rewrite (index_entry_pair k w).
  destruct (array_index k) as [n|] eqn:Ek; simpl; [|by apply IH].
  constructor; [|by apply IH].
  intros ([n' w'] & Heq & Hin)%list_elem_of_fmap. simpl in Heq. subst n'.
  apply list_elem_of_omap in Hin as ([k' w''] & Hin & Hie%index_entry_Some).
  simpl in Hie. destruct Hie as [Ek' _].
  apply Hk, list_elem_of_fmap. exists (k', w''). split; [|done].
  simpl. by apply (array_index_inj _ _ n).
Qed.

(** Sorted by [≤] with distinct keys is sorted by [<]. *)
Lemma key_sorted_strict (l : list (N * V)) :
  Sorted key_le l → NoDup (map fst l) → StronglySorted (λ a b, a.1 < b.1)%N l.
Proof.
  intros Hs%Sorted_StronglySorted; [|apply _]. induction Hs as [|x l _ IH Hx]; [constructor|].
  simpl. rewrite NoDup_cons. intros [Hn Hnd]. constructor; [by apply IH|].
  apply Forall_forall. intros y Hy. eapply Forall_forall in Hx; [|exact Hy].
  unfold key_le in Hx. assert (x.1 ≠ y.1); [|lia].
  intros Heq. apply Hn, list_elem_of_fmap. by exists y.
Qed.

Lemma sorted_keys_strict (l : list (N * V)) :
  StronglySorted N.lt (map fst l) → StronglySorted (λ a b, a.1 < b.1)%N l.
Proof.
  induction l as [|x l IH]; simpl; [constructor|].
  rewrite !StronglySorted_cons. intros [Hx Hl]. split; [|by apply IH].
  exact (proj1 (List.Forall_map _ _ _) Hx).
Qed.

Lemma elem_of_assoc_get {K} `{EqDecision K} (l : list (K * V)) x :
  NoDup (map fst l) → x ∈ l ↔ assoc_get x.1 l = Some x.2.
Proof.
  destruct x as [k v]. intros Hnd. split; [by apply assoc_get_elem_of|apply assoc_get_Some].
Qed.

(** The sorted part of a well-formed object, read at an index. *)
Lemma elements_get o n :
  wf o → assoc_get n (elements o) =
         if decide (n < array_index_bound)%N then obj_get (pretty n) o else None.
Proof.
  intros (_ & Hb & _). case_decide as Hn.
  - unfold obj_get. by rewrite array_index_pretty.
  - apply assoc_get_None. intros Hin. eapply Forall_forall in Hb; [|exact Hin]. done.
Qed.

Lemma filter_assoc_set r k v :
  filter (λ e, array_index e.1 = None) (ref_set k v r) =
  if decide (array_index k = None) then ref_set k v (filter (λ e, array_index e.1 = None) r)
  else filter (λ e, array_index e.1 = None) r.
Proof.
  unfold ref_set. induction r as [|[k' w] r IH]; cbn [assoc_set].
  - rewrite filter_cons, filter_nil. cbn [fst assoc_set]. by case_decide.
  - rewrite decide_bool_decide. destruct (bool_decide (k = k')) eqn:E.
    + apply bool_decide_eq_true in E as <-. rewrite !filter_cons. cbn [fst].
      by repeat (case_decide; cbn [assoc_set]; rewrite ?decide_True by done).
    + apply bool_decide_eq_false in E. rewrite !filter_cons. cbn [fst].
      case_decide; case_decide; cbn [assoc_set]; rewrite ?IH; rewrite ?decide_False by done; done.
Qed.

(** The description of an object's properties determines its
    enumeration: [Object.keys] and [Object.entries] follow
    [OrdinaryOwnPropertyKeys]. *)
Theorem represents_own_entries o r : represents o r → own_entries o = ref_own_entries r.
Proof.
  intros (Ho & Hnd & Hget & Hp). unfold own_entries, ref_own_entries. rewrite Hp.
  f_equal. f_equal. pose proof Ho as (Hs & _ & _).
  assert (NoDup (map fst (elements o))) as Hnd1 by by apply StronglySorted_NoDup.
  pose proof (NoDup_index_entries r Hnd) as Hnd2.
  assert (elements o ≡ₚ omap index_entry r) as Hperm.
  { apply NoDup_Permutation; [by eapply NoDup_fmap_1|by eapply NoDup_fmap_1|].
    intros x. rewrite !elem_of_assoc_get by done.
    by rewrite elements_get, assoc_get_index_entries, Hget. }
  apply (StronglySorted_unique_strong (λ a b, a.1 < b.1)%N).
  - intros ?????. lia.
  - by apply sorted_keys_strict.
  - apply key_sorted_strict; [apply Sorted_merge_sort; apply _|].
    by rewrite merge_sort_Permutation.
  - by rewrite merge_sort_Permutation.
Qed.

Lemma represents_empty : represents (@empty_obj V) [].
Proof. split_and!; [apply wf_empty|constructor|intros k; apply obj_get_empty|done]. Qed.

Lemma represents_set o r k v : represents o r → represents (obj_set k v o) (ref_set k v r).
Proof.
  intros (Ho & Hnd & Hget & Hp). split_and!.
  - by apply wf_set.
  - by apply NoDup_assoc_set.
  - intros k'. unfold ref_set. by rewrite obj_get_set, Hget, assoc_get_set.
  - rewrite filter_assoc_set, <-Hp. unfold obj_set.
    by destruct (array_index k).
Qed.

Lemma represents_assign es o r :
  represents o r → represents (assign_entries es o) (ref_assign es r).
Proof.
  revert o r. induction es as [|[k v] es IH]; intros o r Hr; [done|].
  apply IH. by apply represents_set.
Qed.

(** A well-formed object is described by its own entries. *)
Lemma represents_own o : wf o → represents o (own_entries o).
Proof.
  intros Ho. pose proof Ho as (_ & Hb & _ & Hni). split_and!; [done|by apply own_keys_NoDup| |].
  - intros k. destruct (obj_get k o) as [v|] eqn:Hk.
    + symmetry. apply assoc_get_elem_of; [by apply own_keys_NoDup|]. by apply own_entries_get.
    + symmetry. apply assoc_get_None. change (k ∉ own_keys o).
      rewrite own_keys_get by done. rewrite Hk. by intros [].
  - unfold own_entries. rewrite filter_app.
    induction (elements o) as [|[n w] l IH]; simpl.
    + clear Hb. induction (props o) as [|[k w] ps IH]; [done|].
      apply Forall_cons in Hni as [Hk Hni]. rewrite filter_cons_True by done. f_equal. by apply IH.
    + apply Forall_cons in Hb as [Hn Hb]. rewrite filter_cons_False; [by apply IH|].
      simpl. by rewrite array_index_pretty.
Qed.

(** Writing [k] into a copy of [src], [{ ...src, [k]: v }], is [[[Set]]]
    on the description of [src]. *)
Lemma represents_spread_with t r k v :
  table_represents t r → represents (spread_with t k v) (ref_set k v r).
Proof.
  destruct t as [o|]; simpl; intros Hr.
  - rewrite spread_with_Some by apply Hr. by apply represents_set.
  - subst. rewrite spread_with_None. apply represents_set, represents_empty.
Qed.

(** Copying a list of entries into a fresh object enumerates in the
    language's order. *)
Lemma own_entries_assign_creation_order es :
  own_entries (assign_entries es empty_obj) = ref_own_entries (ref_assign es (@nil (string * V))).
Proof. apply represents_own_entries, represents_assign, represents_empty. Qed.

End Lemmas.

End KeyOrder.
