(* ===== verification/Lodash.v ===== *)
(** * lodash's [invert]

    The reducer builds its backward table with lodash's [invert], which
    walks the own enumerable properties of its argument with [baseForOwn]
    and writes [result[value] = key] for each: the value is turned into a
    property key by [ToPropertyKey], the key is stored as a string, and a
    later property overwrites an earlier one with the same value.  lodash is
    a dependency, not code of this repository: the definitions follow its
    documented behaviour ([createInverter], [baseInverter], [baseForOwn]). *)

From S2P Require Import Prelude PropertyKey JsObject.

Module Lodash.
Import PropertyKey JsObject.

(** [baseForOwn(object, iteratee)] with an accumulator: the own properties
    in [Object.keys] order. *)
Definition base_for_own {A} (f : A → js_value → string → A) (acc : A)
    (object : obj js_value) : A :=
  fold_left (λ acc '(key, value), f acc value key) (own_entries object) acc.

(** The setter of [invert]: [result[value] = key]. *)
Definition invert_setter (result : obj js_value) (value : js_value) (key : string) : obj js_value :=
  obj_set (to_property_key value) (JString key) result.

(** [invert(object)]; [invert(undefined)] is [{}]. *)
Definition invert (object : option (obj js_value)) : obj js_value :=
  match object with
  | None => empty_obj
  | Some o => base_for_own invert_setter empty_obj o
  end.

(** The entries [invert] writes, in order. *)
Definition inverted_entries (o : obj js_value) : list (string * js_value) :=
  map (λ '(key, value), (to_property_key value, JString key)) (own_entries o).

(** The values of [o] are distinct as property keys: [invert] loses
    nothing. *)
Definition values_injective (o : obj js_value) : Prop :=
  NoDup (map to_property_key (obj_values o)).

#[export] Instance values_injective_dec o : Decision (values_injective o).
Proof. unfold values_injective. apply _. Defined.

(** The values of [o] are all strings. *)
Definition string_valued (o : obj js_value) : bool :=
  forallb (λ v, match v with JString _ => true | _ => false end) (obj_values o).

Lemma invert_as_assign o : invert (Some o) = assign_entries (inverted_entries o) empty_obj.
Proof.
  unfold invert, base_for_own, assign_entries, inverted_entries.
  generalize (@empty_obj js_value). induction (own_entries o) as [|[k v] es IH]; intros t; simpl; [done|].
  apply IH.
Qed.

Lemma find_last_inverted p o :
  find_last (λ e : string * js_value, bool_decide (e.1 = p)) (inverted_entries o) =
  (λ '(k, v), (to_property_key v, JString k)) <$>
    find_last (λ e : string * js_value, bool_decide (to_property_key e.2 = p)) (own_entries o).
Proof.
  unfold inverted_entries. induction (own_entries o) as [|[k v] es IH]; simpl; [done|].
  rewrite IH. destruct (find_last _ es); simpl; [done|]. by case_bool_decide.
Qed.

(** ** What [invert] computes *)

(** [invert(o)[p]] is the last key of [o], in enumeration order, whose
    value converts to [p]. *)
Lemma invert_get_find_last o p :
  obj_get p (invert (Some o)) =
  (λ e : string * js_value, JString e.1) <$>
    find_last (λ e : string * js_value, bool_decide (to_property_key e.2 = p)) (own_entries o).
Proof.
  rewrite invert_as_assign, obj_get_assign_entries, find_last_inverted, obj_get_empty.
  by destruct (find_last _ (own_entries o)) as [[]|].
Qed.

(** Every key of [invert(o)] comes from a property of [o]. *)
Lemma invert_sound o p w :
  wf o → obj_get p (invert (Some o)) = Some w →
  ∃ k v, w = JString k ∧ obj_get k o = Some v ∧ to_property_key v = p.
Proof.
  intros Ho. rewrite invert_get_find_last.
  destruct (find_last _ (own_entries o)) as [[k v]|] eqn:E; simpl; [|discriminate].
  intros [= <-]. apply find_last_Some in E as [Hin Hp%bool_decide_eq_true].
  exists k, v. split_and!; [done| |done]. by apply own_entries_get.
Qed.

(** Every value of [o] is a key of [invert(o)]. *)
Lemma invert_complete o k v :
  wf o → obj_get k o = Some v →
  ∃ k', obj_get (to_property_key v) (invert (Some o)) = Some (JString k').
Proof.
  intros Ho Hget%own_entries_get; [|done]. rewrite invert_get_find_last.
  destruct (find_last _ (own_entries o)) as [[k' v']|] eqn:E; simpl; [by exists k'|].
  apply find_last_None in E. eapply Forall_forall in E; [|exact Hget].
  simpl in E. by rewrite bool_decide_eq_false in E.
Qed.

(** When [k] is the only key whose value converts to [p], [invert] maps
    [p] back to [k]. *)
Lemma invert_get_unique o p k v :
  wf o → obj_get k o = Some v → to_property_key v = p →
  (∀ k2 v2, obj_get k2 o = Some v2 → to_property_key v2 = p → k2 = k) →
  obj_get p (invert (Some o)) = Some (JString k).
Proof.
  intros Ho Hget Hp Huniq. rewrite invert_get_find_last.
  rewrite (find_last_unique _ _ (k, v)); [done|..].
  - by apply own_entries_get.
  - by apply bool_decide_eq_true.
  - intros [k2 v2] Hin%own_entries_get Hp2%bool_decide_eq_true; [|done]. simpl in *.
    assert (k2 = k) as -> by eauto. congruence.
Qed.

Lemma values_injective_keys o k1 k2 v1 v2 :
  wf o → values_injective o → obj_get k1 o = Some v1 → obj_get k2 o = Some v2 →
  to_property_key v1 = to_property_key v2 → k1 = k2.
Proof.
  intros Ho Hinj H1%own_entries_get H2%own_entries_get Heq; [|done..].
  unfold values_injective, obj_values in Hinj. rewrite map_map in Hinj.
  by pose proof (NoDup_map_eq (λ x, to_property_key x.2) _ _ _ Hinj H1 H2 Heq) as [=].
Qed.

Lemma wf_invert o : wf (invert o).
Proof. destruct o as [o|]; [rewrite invert_as_assign|]; auto with js. Qed.

(** ** [invert] on injective objects *)

(** With distinct values, [invert(o)] is exactly the inverse of [o]. *)
Theorem invert_inverse o p k :
  wf o → values_injective o →
  obj_get p (invert (Some o)) = Some (JString k) ↔
  ∃ v, obj_get k o = Some v ∧ to_property_key v = p.
Proof.
  intros Ho Hinj. split.
  - intros (k' & v & [= <-] & Hget & Hp)%invert_sound; [|done]. eauto.
  - intros (v & Hget & Hp). apply (invert_get_unique _ _ _ v); [done..|].
    intros k2 v2 Hget2 Hp2. eapply values_injective_keys; [done..|congruence].
Qed.

Lemma invert_keys_elem o p :
  wf o → p ∈ own_keys (invert (Some o)) ↔ p ∈ map to_property_key (obj_values o).
Proof.
  intros Ho. rewrite own_keys_get by apply wf_invert.
  unfold obj_values. rewrite map_map, list_elem_of_fmap. split.
  - intros [w (k & v & -> & Hget & <-)%invert_sound]; [|done].
    exists (k, v). split; [done|]. by apply own_entries_get.
  - intros [[k v] [-> Hin]]. apply own_entries_get in Hin; [|done].
    destruct (invert_complete o k v) as [k' Hk']; [done..|]. by exists (JString k').
Qed.

(** With distinct values, [invert] keeps the number of properties. *)
Theorem invert_keys_length o :
  wf o → values_injective o →
  length (own_keys (invert (Some o))) = length (own_keys o).
Proof.
  intros Ho Hinj.
  rewrite (Permutation_length (NoDup_Permutation _ _ (own_keys_NoDup _ (wf_invert _)) Hinj
             (λ p, invert_keys_elem o p Ho))).
  unfold obj_values, own_keys. by rewrite !length_map.
Qed.

(** [invert] never has more properties than its argument: each key of
    [invert(o)] is the property key of a value of [o]. *)
Lemma invert_keys_length_le o :
  wf o → length (own_keys (invert (Some o))) ≤ length (own_keys o).
Proof.
  intros Ho. etrans.
  - apply submseteq_length, NoDup_submseteq; [by apply own_keys_NoDup, wf_invert|].
    intros p. apply invert_keys_elem, Ho.
  - unfold obj_values, own_keys. by rewrite !length_map.
Qed.

(** Round trip: inverting twice an object whose values are distinct
    strings gives back the same properties. *)
Lemma invert_involutive o :
  wf o → values_injective o → string_valued o = true →
  invert (Some (invert (Some o))) ≡ o.
Proof.
  intros Ho Hinj Hstr k. destruct (obj_get k o) as [v|] eqn:Hk.
  - assert (∃ s, v = JString s) as [s ->].
    { apply own_entries_get in Hk; [|done]. unfold string_valued, obj_values in Hstr.
      rewrite forallb_forall in Hstr.
      specialize (Hstr v (proj1 (list_elem_of_In _ _) (proj2 (list_elem_of_fmap _ _ _) (ex_intro _ (k, v) (conj eq_refl Hk))))).
      destruct v; by eauto. }
    apply (invert_get_unique _ _ _ (JString k)); [apply wf_invert| |done|].
    + by apply invert_inverse; [..|exists (JString s)].
    + intros s2 w Hget Hw.
      apply invert_sound in Hget as (k2 & v2 & -> & Hget2 & <-); [|done].
      simpl in Hw. subst k2. rewrite Hk in Hget2. by injection Hget2 as <-.
  - destruct (obj_get k (invert _)) as [w|] eqn:Hw; [|done].
    apply invert_sound in Hw as (s2 & w' & -> & Hget & Hk'); [|apply wf_invert].
    apply invert_sound in Hget as (k2 & v2 & -> & Hget2 & <-); [|done].
    simpl in Hk'. subst k2. congruence.
Qed.


(** On objects with distinct values, [invert] respects equivalence:
    two objects with the same properties, in whatever order, have inverses
    with the same properties. *)
Lemma invert_proper_injective o1 o2 :
  wf o1 → wf o2 → o1 ≡ o2 → values_injective o1 →
  invert (Some o1) ≡ invert (Some o2).
Proof.
  intros H1 H2 Heq Hinj p. destruct (obj_get p (invert (Some o1))) as [w|] eqn:Hw.
  - apply invert_sound in Hw as (k & v & -> & Hk & Hp); [|done].
    symmetry. apply (invert_get_unique _ _ _ v); [done|by rewrite <-Heq|done|].
    intros k2 v2 Hk2 Hp2. rewrite <-Heq in Hk2.
    apply (values_injective_keys o1 k2 k v2 v); [done..|congruence].
  - destruct (obj_get p (invert (Some o2))) as [w|] eqn:Hw2; [|done].
    apply invert_sound in Hw2 as (k & v & -> & Hk & <-); [|done].
    rewrite <-Heq in Hk. destruct (invert_complete o1 k v H1 Hk) as [k' Hk'].
    congruence.
Qed.

(** Without distinct values [invert] depends on the enumeration order:
    [{b: "x", a: "x"}] and [{a: "x", b: "x"}] have the same properties but
    invert to ["x" -> "a"] and ["x" -> "b"]. *)
Example invert_order_sensitive :
  obj_set "a" (JString "x") (obj_set "b" (JString "x") empty_obj)
    ≡ obj_set "b" (JString "x") (obj_set "a" (JString "x") empty_obj) ∧
  obj_get "x" (invert (Some (obj_set "a" (JString "x") (obj_set "b" (JString "x") empty_obj))))
    = Some (JString "a") ∧
  obj_get "x" (invert (Some (obj_set "b" (JString "x") (obj_set "a" (JString "x") empty_obj))))
    = Some (JString "b").
Proof.
  split_and!; [|vm_compute; reflexivity..].
  intros k. rewrite !obj_get_set, obj_get_empty. by repeat case_decide; subst.
Qed.

End Lodash.
