(* ===== verification/MappingsReducer.v ===== *)
(** * The [mappings] reducer of the edit-navigation store

    [src/packages/edit-navigation/src/store/reducer.js] keeps two tables in
    the [mappings] slice of the store: [menuItemIdByClientId], written with
    menu item ids as keys and client ids as values, and
    [clientIdByMenuItemId], always rebuilt with lodash's [invert] from the
    first.  [SET_MENU_ITEMS_TO_CLIENT_ID_MAPPING] replaces both;
    [ASSIGN_MENU_ITEM_ID_TO_CLIENT_ID] adds or overwrites one pair.  This
    file holds the reducer, the action creators, the reads of the two
    tables, the invariant "the backward table is [invert] of the forward
    one" and the behaviour of each action; [MappingsStore] holds the store
    that [combineReducers] builds around it. *)

From S2P Require Import Prelude PropertyKey JsObject KeyOrder Lodash.

Module MappingsReducer.
Import PropertyKey JsObject KeyOrder Lodash.


(** ** State and actions *)

(** The [mappings] slice: an object with (at most) the two keys the reducer
    writes; [None] is a key that is absent (reads as [undefined]). *)
Record mappings_state := {
  menuItemIdByClientId : option (obj js_value);
  clientIdByMenuItemId : option (obj js_value)
}.

(** [{}], what the reducer returns for an action it does not handle. *)
Definition empty_state : mappings_state := {| menuItemIdByClientId := None; clientIdByMenuItemId := None |}.

(** A dispatched action: its [type] and the fields the reducer reads
    ([undefined] when the action has no such field). *)
Record action := {
  type : string;
  mapping : option (obj js_value);
  menuItemId : js_value;
  clientId : js_value
}.

Definition SET_MENU_ITEMS_TO_CLIENT_ID_MAPPING : string := "SET_MENU_ITEMS_TO_CLIENT_ID_MAPPING".
Definition ASSIGN_MENU_ITEM_ID_TO_CLIENT_ID : string := "ASSIGN_MENU_ITEM_ID_TO_CLIENT_ID".

(** What [console.log("what what", menuItemIdByClientId)] prints. *)
Inductive log_line := LogObject (label : string) (o : obj js_value).

(** ** The reducer

    [mappings(state, action)] with the state [undefined] when the store
    has no slice yet.  Reading [state.menuItemIdByClientId] of an
    [undefined] state throws. *)
Definition mappings (state : option mappings_state) (a : action)
    : result (mappings_state * list log_line) :=
  if String.eqb (type a) SET_MENU_ITEMS_TO_CLIENT_ID_MAPPING then
    Ok ({| menuItemIdByClientId := mapping a;
           clientIdByMenuItemId := Some (invert (mapping a)) |}, [])
  else if String.eqb (type a) ASSIGN_MENU_ITEM_ID_TO_CLIENT_ID then
    match state with
    | None => Throw (TypeError "Cannot read properties of undefined (reading 'menuItemIdByClientId')")
    | Some s =>
        let byClientId := spread_with (menuItemIdByClientId s)
                            (to_property_key (menuItemId a)) (clientId a) in
        Ok ({| menuItemIdByClientId :=
                 Some (spread_with (menuItemIdByClientId s)
                         (to_property_key (menuItemId a)) (clientId a));
               clientIdByMenuItemId := Some (invert (Some byClientId)) |},
            [LogObject "what what" byClientId])
    end
  else Ok (default empty_state state, []).

(** The next state, without the console output. *)
Definition mappings_next (state : option mappings_state) (a : action) : result mappings_state :=
  fst <$> mappings state a.

(** ** Action creators *)

(** [setMenuItemsToClientIdMapping(mapping)] and
    [assignMenuItemIdToClientId(menuItemId, clientId)] of the package's
    [actions.js]: the action objects the reducer receives. *)
Definition setMenuItemsToClientIdMapping (m : obj js_value) : action :=
  {| type := SET_MENU_ITEMS_TO_CLIENT_ID_MAPPING; mapping := Some m;
     menuItemId := JUndefined; clientId := JUndefined |}.

Definition assignMenuItemIdToClientId (mid cid : js_value) : action :=
  {| type := ASSIGN_MENU_ITEM_ID_TO_CLIENT_ID; mapping := None;
     menuItemId := mid; clientId := cid |}.

(** The objects a program can pass are well formed. *)
Definition action_wf (a : action) : Prop := from_option wf True (mapping a).

(** ** Forward and backward reads *)

Definition forward (s : mappings_state) (k : string) : option js_value :=
  menuItemIdByClientId s ≫= obj_get k.

Definition backward (s : mappings_state) (p : string) : option js_value :=
  clientIdByMenuItemId s ≫= obj_get p.

(** ** The invariant: the backward table is [invert] of the forward one *)

Definition mappings_inv (s : mappings_state) : Prop :=
  from_option wf True (menuItemIdByClientId s) ∧
  (s = empty_state ∨ clientIdByMenuItemId s = Some (invert (menuItemIdByClientId s))).

(** ** The three branches of the reducer *)

Lemma mappings_next_set st a :
  type a = SET_MENU_ITEMS_TO_CLIENT_ID_MAPPING →
  mappings_next st a = Ok {| menuItemIdByClientId := mapping a;
                              clientIdByMenuItemId := Some (invert (mapping a)) |}.
Proof. intros Ha. unfold mappings_next, mappings. by rewrite Ha. Qed.

Lemma mappings_next_assign s a :
  type a = ASSIGN_MENU_ITEM_ID_TO_CLIENT_ID →
  mappings_next (Some s) a =
  Ok (let b := spread_with (menuItemIdByClientId s) (to_property_key (menuItemId a)) (clientId a) in
      {| menuItemIdByClientId := Some b; clientIdByMenuItemId := Some (invert (Some b)) |}).
Proof. intros Ha. unfold mappings_next, mappings. by rewrite Ha. Qed.

Lemma mappings_next_other st a :
  type a ≠ SET_MENU_ITEMS_TO_CLIENT_ID_MAPPING → type a ≠ ASSIGN_MENU_ITEM_ID_TO_CLIENT_ID →
  mappings_next st a = Ok (default empty_state st).
Proof.
  intros H1 H2. unfold mappings_next, mappings.
  by rewrite (proj2 (String.eqb_neq _ _) H1), (proj2 (String.eqb_neq _ _) H2).
Qed.

(** Case analysis on the type of an action. *)
Ltac action_cases a :=
  destruct (decide (type a = SET_MENU_ITEMS_TO_CLIENT_ID_MAPPING)) as [?Hset|?Hset];
  [|destruct (decide (type a = ASSIGN_MENU_ITEM_ID_TO_CLIENT_ID)) as [?Hasg|?Hasg]].

(** ** Invariant preservation *)

Lemma mappings_inv_empty : mappings_inv empty_state.
Proof. split; [done|by left]. Qed.

Lemma mappings_inv_step s a s' :
  mappings_inv s → action_wf a → mappings_next (Some s) a = Ok s' → mappings_inv s'.
Proof.
  intros [Hwf Hc] Ha. action_cases a.
  - rewrite mappings_next_set by done. intros [= <-]. split; [done|by right].
  - rewrite mappings_next_assign by done. intros [= <-]. split; [|by right].
    simpl. by apply wf_spread_with.
  - rewrite mappings_next_other by done. by intros [= <-].
Qed.

(** ** Reads in a state that satisfies the invariant *)

Lemma backward_inv s p :
  mappings_inv s →
  backward s p = match menuItemIdByClientId s with
                 | Some o => obj_get p (invert (Some o))
                 | None => None
                 end.
Proof.
  intros [_ [->|Hc]]; [done|]. unfold backward. rewrite Hc. simpl.
  destruct (menuItemIdByClientId s); [done|]. apply obj_get_empty.
Qed.

Lemma forward_spread_with s key v k :
  from_option wf True (menuItemIdByClientId s) →
  obj_get k (spread_with (menuItemIdByClientId s) key v) =
  if decide (k = key) then Some v else forward s k.
Proof.
  unfold forward. destruct (menuItemIdByClientId s) as [o|]; simpl; intros Ho.
  - rewrite spread_with_Some, obj_get_set by done. done.
  - rewrite spread_with_None, obj_get_set, obj_get_empty. done.
Qed.

#[export] Hint Resolve mappings_inv_empty mappings_inv_step : js.

(** ** Properties of the reducer *)

(** C18: Called directly on an [undefined] state, the assign branch throws
    a [TypeError]. *)
Theorem mappings_assign_undefined_throws a :
  type a = ASSIGN_MENU_ITEM_ID_TO_CLIENT_ID → ∃ e, mappings None a = Throw e.
Proof. intros Ha. unfold mappings. rewrite Ha. simpl. by eexists. Qed.

(** C6: [ASSIGN_MENU_ITEM_ID_TO_CLIENT_ID] writes [clientId] under the
    property key of [menuItemId] and keeps every other forward entry. *)
Theorem assign_forward s mid cid s' k :
  mappings_inv s → mappings_next (Some s) (assignMenuItemIdToClientId mid cid) = Ok s' →
  forward s' k = if decide (k = to_property_key mid) then Some cid else forward s k.
Proof.
  intros [Hwf _]. rewrite mappings_next_assign by done. intros [= <-].
  unfold forward at 1. simpl. by apply forward_spread_with.
Qed.

(** C7: Assigning the same pair twice gives the same state as assigning it
    once. *)
Theorem assign_idempotent s mid cid s1 :
  mappings_inv s → mappings_next (Some s) (assignMenuItemIdToClientId mid cid) = Ok s1 →
  mappings_next (Some s1) (assignMenuItemIdToClientId mid cid) = Ok s1.
Proof.
  intros [Hwf _]. rewrite !mappings_next_assign by done. intros [= <-]. simpl.
  rewrite spread_with_Some by (by apply wf_spread_with).
  rewrite obj_set_id; [done|by apply wf_spread_with|].
  rewrite forward_spread_with by done. by rewrite decide_True.
Qed.

(** C9: [SET_MENU_ITEMS_TO_CLIENT_ID_MAPPING] discards the previous state:
    the forward table reads as the given mapping and the backward table as
    its inversion, whatever the state was. *)
Theorem set_replaces_state st m s' :
  mappings_next st (setMenuItemsToClientIdMapping m) = Ok s' →
  ∀ k, forward s' k = obj_get k m ∧ backward s' k = obj_get k (invert (Some m)).
Proof. rewrite mappings_next_set by done. by intros [= <-]. Qed.

(** C8: Overwrite: from [forward = {a: x}], assigning [(a, y)] with
    [y <> x] gives [forward[a] = y], [backward[y] = a] and no backward
    entry for [x]. *)
Theorem assign_overwrites_pair s0 s1 s2 a x y :
  x ≠ y →
  mappings_next s0 (setMenuItemsToClientIdMapping (obj_set a (JString x) empty_obj)) = Ok s1 →
  mappings_next (Some s1) (assignMenuItemIdToClientId (JString a) (JString y)) = Ok s2 →
  forward s2 a = Some (JString y) ∧ backward s2 y = Some (JString a) ∧ backward s2 x = None.
Proof.
  intros Hxy. rewrite mappings_next_set by done. intros [= <-].
  rewrite mappings_next_assign by done. intros [= <-].
  unfold forward, backward. simpl.
  assert (wf (obj_set a (JString x) (@empty_obj js_value))) as Hwf by auto with js.
  rewrite spread_with_Some by done.
  assert (∀ k, obj_get k (obj_set a (JString y) (obj_set a (JString x) empty_obj)) =
               if decide (k = a) then Some (JString y) else None) as Hget.
  { intros k. rewrite !obj_get_set, obj_get_empty. by repeat case_decide. }
  split_and!.
  - by rewrite Hget, decide_True.
  - apply (invert_get_unique _ _ _ (JString y)); [auto with js|by rewrite Hget, decide_True|done|].
    intros k2 v2. rewrite Hget. by case_decide.
  - destruct (obj_get x _) as [w|] eqn:Hw; [|done].
    apply invert_sound in Hw as (k & v & -> & Hk & Hv); [|auto with js].
    rewrite Hget in Hk. case_decide; simplify_eq.
Qed.

(** C30: The reducer writes to the console on every
    [ASSIGN_MENU_ITEM_ID_TO_CLIENT_ID] it handles, once, with the new
    forward table, and on no other action. *)
Theorem mappings_console_output s a s' logs :
  mappings (Some s) a = Ok (s', logs) →
  logs = if String.eqb (type a) ASSIGN_MENU_ITEM_ID_TO_CLIENT_ID
              && negb (String.eqb (type a) SET_MENU_ITEMS_TO_CLIENT_ID_MAPPING)
         then from_option (λ b, [LogObject "what what" b]) [] (menuItemIdByClientId s')
         else [].
Proof.
  unfold mappings. destruct (String.eqb (type a) SET_MENU_ITEMS_TO_CLIENT_ID_MAPPING);
    [by intros [= _ <-]; rewrite andb_false_r|].
  destruct (String.eqb (type a) ASSIGN_MENU_ITEM_ID_TO_CLIENT_ID); simpl; by intros [= <- <-].
Qed.

(** C31: After [ASSIGN_MENU_ITEM_ID_TO_CLIENT_ID] the forward table holds
    the properties of the old table, in their creation order, with the
    assigned key written in place or created last; [Object.keys] and
    [invert] enumerate it as ECMAScript's [OrdinaryOwnPropertyKeys]
    prescribes for that creation order. *)
Theorem assign_forward_creation_order s mid cid s' r :
  table_represents (menuItemIdByClientId s) r →
  mappings_next (Some s) (assignMenuItemIdToClientId mid cid) = Ok s' →
  table_represents (menuItemIdByClientId s') (ref_set (to_property_key mid) cid r) ∧
  from_option own_entries [] (menuItemIdByClientId s') =
    ref_own_entries (ref_set (to_property_key mid) cid r).
Proof.
  intros Hr. rewrite mappings_next_assign by done. intros [= <-]. simpl.
  pose proof (represents_spread_with _ _ (to_property_key mid) cid Hr) as Hs.
  split; [done|]. by apply represents_own_entries.
Qed.

(** ** Witnesses at concrete states *)

Lemma assign_forward_witness :
  let s' := {| menuItemIdByClientId := Some (obj_set "5" (JString "c") empty_obj);
               clientIdByMenuItemId := Some (invert (Some (obj_set "5" (JString "c") empty_obj))) |} in
  mappings_inv empty_state ∧
  mappings_next (Some empty_state) (assignMenuItemIdToClientId (JNumber 5) (JString "c")) = Ok s' ∧
  forward s' "5" = Some (JString "c").
Proof.
  intros s'.
  assert (Hi : mappings_inv empty_state) by (split; [exact I|left; reflexivity]).
  assert (Hn : mappings_next (Some empty_state) (assignMenuItemIdToClientId (JNumber 5) (JString "c")) = Ok s')
    by reflexivity.
  split_and!; [exact Hi|exact Hn|]. rewrite (assign_forward _ _ _ _ "5" Hi Hn). reflexivity.
Defined.

Lemma assign_idempotent_witness :
  let s1 := {| menuItemIdByClientId := Some (obj_set "5" (JString "c") empty_obj);
               clientIdByMenuItemId := Some (invert (Some (obj_set "5" (JString "c") empty_obj))) |} in
  mappings_inv empty_state ∧
  mappings_next (Some empty_state) (assignMenuItemIdToClientId (JNumber 5) (JString "c")) = Ok s1 ∧
  mappings_next (Some s1) (assignMenuItemIdToClientId (JNumber 5) (JString "c")) = Ok s1.
Proof.
  intros s1.
  assert (Hi : mappings_inv empty_state) by (split; [exact I|left; reflexivity]).
  assert (Hn : mappings_next (Some empty_state) (assignMenuItemIdToClientId (JNumber 5) (JString "c")) = Ok s1)
    by reflexivity.
  split_and!; [exact Hi|exact Hn|exact (assign_idempotent _ _ _ _ Hi Hn)].
Defined.

Lemma assign_overwrites_pair_witness :
  let m := obj_set "a" (JString "x") empty_obj in
  let s1 := {| menuItemIdByClientId := Some m; clientIdByMenuItemId := Some (invert (Some m)) |} in
  let b := obj_set "a" (JString "y") m in
  let s2 := {| menuItemIdByClientId := Some b; clientIdByMenuItemId := Some (invert (Some b)) |} in
  "x" ≠ "y" ∧
  mappings_next None (setMenuItemsToClientIdMapping m) = Ok s1 ∧
  mappings_next (Some s1) (assignMenuItemIdToClientId (JString "a") (JString "y")) = Ok s2 ∧
  forward s2 "a" = Some (JString "y") ∧ backward s2 "y" = Some (JString "a") ∧ backward s2 "x" = None.
Proof.
  intros m s1 b s2.
  assert (Hxy : "x" ≠ "y") by discriminate.
  assert (H1 : mappings_next None (setMenuItemsToClientIdMapping m) = Ok s1) by reflexivity.
  assert (H2 : mappings_next (Some s1) (assignMenuItemIdToClientId (JString "a") (JString "y")) = Ok s2)
    by reflexivity.
  split_and!; [exact Hxy|exact H1|exact H2|..];
    [apply (assign_overwrites_pair None s1 s2 "a" "x" "y" Hxy H1 H2)..].
Defined.

Lemma set_replaces_state_witness :
  let m := obj_set "7" (JString "c1") empty_obj in
  let s' := {| menuItemIdByClientId := Some m; clientIdByMenuItemId := Some (invert (Some m)) |} in
  mappings_next (Some {| menuItemIdByClientId := Some (obj_set "3" (JString "old") empty_obj);
                         clientIdByMenuItemId := None |}) (setMenuItemsToClientIdMapping m) = Ok s' ∧
  forward s' "3" = None ∧ backward s' "old" = None.
Proof.
  intros m s'.
  assert (H : mappings_next (Some {| menuItemIdByClientId := Some (obj_set "3" (JString "old") empty_obj);
                                     clientIdByMenuItemId := None |}) (setMenuItemsToClientIdMapping m) = Ok s')
    by reflexivity.
  split_and!; [exact H|..].
  - rewrite (proj1 (set_replaces_state _ m s' H "3")). reflexivity.
  - rewrite (proj2 (set_replaces_state _ m s' H "old")). vm_compute. reflexivity.
Defined.

Lemma mappings_assign_undefined_throws_witness :
  type (assignMenuItemIdToClientId (JNumber 5) (JString "c")) = ASSIGN_MENU_ITEM_ID_TO_CLIENT_ID ∧
  ∃ e, mappings None (assignMenuItemIdToClientId (JNumber 5) (JString "c")) = Throw e.
Proof.
  split; [reflexivity|]. apply mappings_assign_undefined_throws. reflexivity.
Defined.

Lemma mappings_console_output_witness :
  let b := obj_set "5" (JString "c") empty_obj in
  mappings (Some empty_state) (assignMenuItemIdToClientId (JNumber 5) (JString "c")) =
    Ok ({| menuItemIdByClientId := Some b; clientIdByMenuItemId := Some (invert (Some b)) |},
        [LogObject "what what" b]) ∧
  [LogObject "what what" b] = [LogObject "what what" b].
Proof.
  intros b.
  assert (H : mappings (Some empty_state) (assignMenuItemIdToClientId (JNumber 5) (JString "c")) =
    Ok ({| menuItemIdByClientId := Some b; clientIdByMenuItemId := Some (invert (Some b)) |},
        [LogObject "what what" b])) by reflexivity.
  split; [exact H|]. exact (mappings_console_output _ _ _ _ H).
Defined.

Lemma assign_forward_creation_order_witness :
  let o := obj_set "9" (JString "y") (obj_set "b" (JString "x") empty_obj) in
  let s := {| menuItemIdByClientId := Some o; clientIdByMenuItemId := Some (invert (Some o)) |} in
  table_represents (menuItemIdByClientId s) [("b", JString "x"); ("9", JString "y")] ∧
  ref_own_entries (ref_set (to_property_key (JNumber 10)) (JString "z")
                     [("b", JString "x"); ("9", JString "y")]) =
    [("9", JString "y"); ("10", JString "z"); ("b", JString "x")] ∧
  from_option own_entries []
    (menuItemIdByClientId (let b := spread_with (Some o) "10" (JString "z") in
       {| menuItemIdByClientId := Some b; clientIdByMenuItemId := Some (invert (Some b)) |})) =
  ref_own_entries (ref_set (to_property_key (JNumber 10)) (JString "z")
                     [("b", JString "x"); ("9", JString "y")]).
Proof.
  intros o s.
  assert (Hr : table_represents (menuItemIdByClientId s) [("b", JString "x"); ("9", JString "y")])
    by exact (represents_set _ _ _ _ (represents_set _ _ _ _ represents_empty)).
  split_and!; [exact Hr|vm_compute; reflexivity|].
  exact (proj2 (assign_forward_creation_order s (JNumber 10) (JString "z") _ _ Hr eq_refl)).
Defined.

End MappingsReducer.
