(* ===== verification/MappingsStore.v ===== *)
(** * The edit-navigation store around the [mappings] reducer

    [src/packages/edit-navigation/src/store/reducer.js], lines 42-44:
    [combineReducers({ mappings })] is the store's reducer.  The store
    dispatches an initialisation action when it is created, then each
    action the program dispatches; the slice it holds is fed back into
    [mappings].  This file models the store ([combined_reducer],
    [store_init], [dispatch], [run_actions]), its [reachable] states by
    rule induction, and the properties of the two tables that hold in
    every reachable state. *)

From S2P Require Import Prelude PropertyKey JsObject Lodash MappingsReducer.

Module MappingsStore.
Import PropertyKey JsObject Lodash MappingsReducer.

(** ** The store and its reachable states *)

(** The root state of the store: [combineReducers({ mappings })]. *)
Record store_state := { mappings_slice : option mappings_state }.

(** [combineReducers] calls the slice reducer with the slice of the current
    state ([undefined] before the first action) and stores what it
    returns. *)
Definition combined_reducer (state : option store_state) (a : action) : result store_state :=
  s' ← mappings_next (state ≫= mappings_slice) a;
  mret {| mappings_slice := Some s' |}.

(** The action a store dispatches when it is created. *)
Definition init_action : action :=
  {| type := "@@redux/INIT"; mapping := None; menuItemId := JUndefined; clientId := JUndefined |}.

Definition store_init : result store_state := combined_reducer None init_action.

Definition dispatch (s : store_state) (a : action) : result store_state :=
  combined_reducer (Some s) a.

(** Dispatching a sequence of actions, one after the other. *)
Fixpoint run_actions (s : store_state) (acts : list action) : result store_state :=
  match acts with
  | [] => Ok s
  | a :: acts' => s' ← dispatch s a; run_actions s' acts'
  end.

(** The states of a store reached by dispatching well-formed actions. *)
Inductive reachable : store_state → Prop :=
  | reachable_init s : store_init = Ok s → reachable s
  | reachable_step s a s' : reachable s → action_wf a → dispatch s a = Ok s' → reachable s'.

(** A read of the backward table after a run of the store. *)
Definition read_backward (r : result store_state) (p : string) : option js_value :=
  match r with Ok st => mappings_slice st ≫= λ s, backward s p | Throw _ => None end.

Definition store_inv (st : store_state) : Prop :=
  ∃ s, mappings_slice st = Some s ∧ mappings_inv s.

(** ** The invariant in every reachable state *)

Lemma store_init_eq : store_init = Ok {| mappings_slice := Some empty_state |}.
Proof. reflexivity. Qed.

(** C3: Every dispatch of a well-formed action keeps the backward table
    equal to [invert] of the forward table (or both absent). *)
Theorem dispatch_preserves_inv st a st' :
  store_inv st → action_wf a → dispatch st a = Ok st' → store_inv st'.
Proof.
  intros (s & Hs & Hinv) Ha. unfold dispatch, combined_reducer. simpl. rewrite Hs. simpl.
  destruct (mappings_next (Some s) a) as [s'|] eqn:E; simpl; [|discriminate].
  intros [= <-]. exists s'. split; [done|]. by eapply mappings_inv_step.
Qed.

Lemma dispatch_some st s a :
  mappings_slice st = Some s → ∃ s', mappings_next (Some s) a = Ok s' ∧
    dispatch st a = Ok {| mappings_slice := Some s' |}.
Proof.
  intros Hs. unfold dispatch, combined_reducer. simpl. rewrite Hs. simpl.
  action_cases a.
  - rewrite mappings_next_set by done. by eexists.
  - rewrite mappings_next_assign by done. by eexists.
  - rewrite mappings_next_other by done. by eexists.
Qed.

Lemma reachable_slice st : reachable st → ∃ s, mappings_slice st = Some s ∧ mappings_inv s.
Proof.
  induction 1 as [st Hinit|st a st' _ IH Ha Hd].
  - rewrite store_init_eq in Hinit. injection Hinit as <-. eexists.
    split; [done|apply mappings_inv_empty].
  - destruct IH as (s & Hs & Hinv).
    destruct (dispatch_some st s a Hs) as (s' & Hn & Hd'). rewrite Hd in Hd'. injection Hd' as ->.
    exists s'. split; [done|]. by eapply mappings_inv_step.
Qed.

(** The slice of a reachable store satisfies the invariant. *)
Lemma reachable_inv st s : reachable st → mappings_slice st = Some s → mappings_inv s.
Proof.
  intros Hr Hs. destruct (reachable_slice st Hr) as (s' & Hs' & Hinv). congruence.
Qed.

(** ** Properties of the store *)


(** C4: Dispatching from a reachable state never throws: the [TypeError]
    of the assign branch needs an [undefined] slice, which a store never
    passes after its first action. *)
Theorem run_actions_total st acts :
  reachable st → Forall action_wf acts →
  ∃ st', run_actions st acts = Ok st' ∧ reachable st'.
Proof.
  intros Hst Hacts. revert st Hst. induction Hacts as [|a acts Ha _ IH]; intros st Hst.
  { by exists st. }
  destruct (reachable_slice st Hst) as (s & Hs & _).
  destruct (dispatch_some st s a Hs) as (s' & _ & Hd).
  simpl. rewrite Hd. simpl. apply IH. by eapply reachable_step.
Qed.

(** C1: In every reachable state, [clientIdByMenuItemId[p]] is the last
    key of [menuItemIdByClientId], in enumeration order (array-index keys
    ascending, then the others in creation order), whose value converts to
    [p]. *)
Theorem reachable_backward_last_wins st s o p :
  reachable st → mappings_slice st = Some s → menuItemIdByClientId s = Some o →
  backward s p =
  (λ e : string * js_value, JString e.1) <$>
    find_last (λ e : string * js_value, bool_decide (to_property_key e.2 = p)) (own_entries o).
Proof.
  intros Hr Hs Ho. pose proof (reachable_inv st s Hr Hs) as Hinv.
  rewrite backward_inv, Ho by done. apply invert_get_find_last.
Qed.

(** C16: In every reachable state, each backward entry points to a forward
    entry whose value converts to its key. *)
Theorem reachable_backward_sound st s p w :
  reachable st → mappings_slice st = Some s → backward s p = Some w →
  ∃ k v, w = JString k ∧ forward s k = Some v ∧ to_property_key v = p.
Proof.
  intros Hr Hs. pose proof (reachable_inv st s Hr Hs) as Hinv.
  rewrite backward_inv by done. unfold forward. destruct Hinv as [Hwf _].
  destruct (menuItemIdByClientId s) as [o|]; [|discriminate]. simpl. by apply invert_sound.
Qed.

(** C17: In every reachable state, each forward value has a backward entry. *)
Theorem reachable_backward_complete st s k v :
  reachable st → mappings_slice st = Some s → forward s k = Some v →
  ∃ k', backward s (to_property_key v) = Some (JString k').
Proof.
  intros Hr Hs. pose proof (reachable_inv st s Hr Hs) as Hinv.
  rewrite backward_inv by done. unfold forward. destruct Hinv as [Hwf _].
  destruct (menuItemIdByClientId s) as [o|]; [|discriminate]. simpl. by apply invert_complete.
Qed.

(** C2: In every reachable state whose forward values are distinct, the
    two tables are exact inverses, and the stored backward table has as
    many keys as the forward table. *)
Theorem reachable_tables_inverse st s o :
  reachable st → mappings_slice st = Some s → menuItemIdByClientId s = Some o →
  values_injective o →
  (∀ p k, backward s p = Some (JString k) ↔ ∃ v, forward s k = Some v ∧ to_property_key v = p) ∧
  ∃ c, clientIdByMenuItemId s = Some c ∧ length (own_keys c) = length (own_keys o).
Proof.
  intros Hr Hs Ho Hinj. pose proof (reachable_inv st s Hr Hs) as Hinv.
  assert (wf o) as Hwf by (destruct Hinv as [Hwf _]; by rewrite Ho in Hwf).
  split.
  2:{ destruct Hinv as [_ [->|Hc]]; [done|]. rewrite Ho in Hc.
      eexists. split; [exact Hc|]. by apply invert_keys_length. }
  intros p k. rewrite backward_inv, Ho by done. unfold forward. rewrite Ho. by apply invert_inverse.
Qed.

(** C10: The new pair does not always win: when [menuItemId] is an array
    index and the forward table already maps a key enumerated after it (a
    larger index, or any key that is not an index) to the same client id,
    the assignment succeeds and the forward table maps the new id to the
    client id, but the backward table leaves the client id on the other
    key. *)
Theorem assign_new_pair_loses st s o mid cid m k v :
  reachable st → mappings_slice st = Some s → menuItemIdByClientId s = Some o →
  array_index (to_property_key mid) = Some m →
  obj_get k o = Some v → to_property_key v = to_property_key cid →
  match array_index k with Some n => (m < n)%N | None => True end →
  ∃ st' s', dispatch st (assignMenuItemIdToClientId mid cid) = Ok st' ∧
    mappings_slice st' = Some s' ∧ forward s' (to_property_key mid) = Some cid ∧
    backward s' (to_property_key cid) ≠ Some (JString (to_property_key mid)).
Proof.
  intros Hr Hs Ho Hm Hk Hv Hord.
  destruct (reachable_inv st s Hr Hs) as [Hwf _]. rewrite Ho in Hwf.
  destruct (dispatch_some st s (assignMenuItemIdToClientId mid cid) Hs) as (s' & Hn & Hd).
  rewrite mappings_next_assign in Hn by done. injection Hn as <-. simpl in Hd.
  rewrite Ho, spread_with_Some in Hd by done.
  set (key := to_property_key mid) in *. set (o' := obj_set key cid o).
  assert (Hwf' : wf o') by by apply wf_set.
  assert (Hget : obj_get key o' = Some cid) by apply obj_get_set_eq.
  assert (Hk' : obj_get k o' = Some v).
  { unfold o'. rewrite obj_get_set_ne; [done|]. intros ->. rewrite Hm in Hord. lia. }
  eexists _, _. split_and!; [exact Hd|done|exact Hget|].
  change (obj_get (to_property_key cid) (invert (Some o')) ≠ Some (JString key)).
  rewrite invert_get_find_last.
  destruct (own_entries_split_index o' key m cid k v Hwf' Hm Hget Hk' Hord) as (l1 & l2 & Hsp & Hin).
  destruct (find_last _ (own_entries o')) as [[k2 v2]|] eqn:E; [|done]. simpl.
  intros [= ->]. pose proof (find_last_Some _ _ _ E) as [Hin2 _].
  rewrite (own_entries_functional o' key v2 cid Hwf' Hin2) in E by (rewrite Hsp; apply elem_of_app; right; by left).
  rewrite Hsp in E. revert E. apply (find_last_not_before _ l1 _ l2 (k, v)); [done|by apply bool_decide_eq_true|].
  intros Hx. pose proof (own_keys_NoDup o' Hwf') as Hnd. unfold own_keys in Hnd.
  rewrite Hsp, map_app in Hnd. apply NoDup_app in Hnd as (_ & _ & Hnd). simpl in Hnd.
  apply NoDup_cons in Hnd as [Hnd _]. apply Hnd, list_elem_of_fmap. by exists (key, cid).
Qed.

(** C33: In every reachable store the backward table has at most as many
    properties as the forward table: [invert] can merge keys, never add
    them. *)
Theorem reachable_backward_size st s o :
  reachable st → mappings_slice st = Some s → menuItemIdByClientId s = Some o →
  ∃ c, clientIdByMenuItemId s = Some c ∧ length (own_keys c) ≤ length (own_keys o).
Proof.
  intros Hr Hs Ho. destruct (reachable_inv st s Hr Hs) as [Hwf [->|Hc]]; [done|].
  rewrite Ho in Hwf, Hc. eexists. split; [exact Hc|]. by apply invert_keys_length_le.
Qed.

(** C34: From every reachable store an assignment takes effect: the
    dispatch succeeds, the new store is reachable, the forward table maps
    the menu item id to the client id, and the client id has a backward
    entry. *)
Theorem reachable_assign_takes_effect st mid cid :
  reachable st →
  ∃ st' s', dispatch st (assignMenuItemIdToClientId mid cid) = Ok st' ∧ reachable st' ∧
    mappings_slice st' = Some s' ∧ forward s' (to_property_key mid) = Some cid ∧
    ∃ k, backward s' (to_property_key cid) = Some (JString k).
Proof.
  intros Hr. destruct (reachable_slice st Hr) as (s & Hs & [Hwf _]).
  destruct (dispatch_some st s (assignMenuItemIdToClientId mid cid) Hs) as (s' & Hn & Hd).
  rewrite mappings_next_assign in Hn by done. injection Hn as <-.
  assert (Hget : obj_get (to_property_key mid)
                   (spread_with (menuItemIdByClientId s) (to_property_key mid) cid) = Some cid)
    by (rewrite forward_spread_with by done; by rewrite decide_True).
  eexists _, _. split_and!; [exact Hd|exact (reachable_step st (assignMenuItemIdToClientId mid cid) _ Hr I Hd)|done|exact Hget|].
  apply (invert_complete _ (to_property_key mid)); [by apply wf_spread_with|exact Hget].
Qed.

(** C14: Round trip: in every reachable store whose forward values are
    distinct strings, inverting the backward table gives back the forward
    table. *)
Theorem reachable_backward_roundtrip st s o c :
  reachable st → mappings_slice st = Some s → menuItemIdByClientId s = Some o →
  clientIdByMenuItemId s = Some c → values_injective o → string_valued o = true →
  invert (Some c) ≡ o.
Proof.
  intros Hr Hs Ho Hc Hinj Hstr. destruct (reachable_inv st s Hr Hs) as [Hwf Hcase].
  destruct Hcase as [Heq|Hc']; [subst s; discriminate|].
  rewrite Ho in Hwf, Hc'. rewrite Hc in Hc'. injection Hc' as ->.
  by apply invert_involutive.
Qed.

(** C15: In reachable stores with distinct forward values, the backward
    table depends only on the forward pairs, not on the order in which the
    forward table enumerates them. *)
Theorem reachable_backward_order_independent st1 st2 s1 s2 o1 o2 :
  reachable st1 → reachable st2 → mappings_slice st1 = Some s1 → mappings_slice st2 = Some s2 →
  menuItemIdByClientId s1 = Some o1 → menuItemIdByClientId s2 = Some o2 →
  o1 ≡ o2 → values_injective o1 →
  ∀ p, backward s1 p = backward s2 p.
Proof.
  intros Hr1 Hr2 Hs1 Hs2 Ho1 Ho2 Heq Hinj p.
  pose proof (reachable_inv st1 s1 Hr1 Hs1) as Hinv1.
  pose proof (reachable_inv st2 s2 Hr2 Hs2) as Hinv2.
  rewrite !backward_inv, Ho1, Ho2 by done.
  apply invert_proper_injective; [|  |done|done].
  - destruct Hinv1 as [Hw _]. by rewrite Ho1 in Hw.
  - destruct Hinv2 as [Hw _]. by rewrite Ho2 in Hw.
Qed.

(** C35: The default branch seen from the store: dispatching an action of
    any other type (another store's action, say) leaves a reachable store
    as it is; the slice is never reset to [{}]. *)
Theorem dispatch_other_keeps_store st a :
  reachable st → type a ≠ SET_MENU_ITEMS_TO_CLIENT_ID_MAPPING →
  type a ≠ ASSIGN_MENU_ITEM_ID_TO_CLIENT_ID →
  dispatch st a = Ok st.
Proof.
  intros Hr H1 H2. destruct (reachable_slice st Hr) as (s & Hs & _).
  unfold dispatch, combined_reducer. simpl. rewrite Hs. simpl.
  rewrite mappings_next_other by done. simpl. destruct st; simpl in Hs; by subst.
Qed.

(** ** Witnesses at concrete stores *)

Lemma reachable_backward_last_wins_witness :
  let m := obj_set "b" (JString "c1") (obj_set "7" (JString "c1") empty_obj) in
  let s := {| menuItemIdByClientId := Some m; clientIdByMenuItemId := Some (invert (Some m)) |} in
  reachable {| mappings_slice := Some s |} ∧ mappings_slice {| mappings_slice := Some s |} = Some s ∧
  menuItemIdByClientId s = Some m ∧ backward s "c1" = Some (JString "b").
Proof.
  intros m s.
  assert (Hr : reachable {| mappings_slice := Some s |}).
  { apply (reachable_step {| mappings_slice := Some empty_state |} (setMenuItemsToClientIdMapping m)); [apply reachable_init; reflexivity|simpl; decide_closed|reflexivity]. }
  split_and!; [exact Hr|reflexivity|reflexivity|].
  rewrite (reachable_backward_last_wins _ s m "c1" Hr eq_refl eq_refl). vm_compute. reflexivity.
Defined.

Lemma reachable_tables_inverse_witness :
  let m := obj_set "b" (JString "c2") (obj_set "7" (JString "c1") empty_obj) in
  let s := {| menuItemIdByClientId := Some m; clientIdByMenuItemId := Some (invert (Some m)) |} in
  reachable {| mappings_slice := Some s |} ∧ values_injective m ∧
  (∀ p k, backward s p = Some (JString k) ↔ ∃ v, forward s k = Some v ∧ to_property_key v = p) ∧
  ∃ c, clientIdByMenuItemId s = Some c ∧ length (own_keys c) = length (own_keys m).
Proof.
  intros m s.
  assert (Hr : reachable {| mappings_slice := Some s |}).
  { apply (reachable_step {| mappings_slice := Some empty_state |} (setMenuItemsToClientIdMapping m)); [apply reachable_init; reflexivity|simpl; decide_closed|reflexivity]. }
  assert (Hinj : values_injective m) by decide_closed.
  split_and!; [exact Hr|exact Hinj|..];
    [apply (reachable_tables_inverse _ s m Hr eq_refl eq_refl Hinj)..].
Defined.

Lemma dispatch_preserves_inv_witness :
  let m := obj_set "7" (JString "c1") empty_obj in
  let s := {| menuItemIdByClientId := Some m; clientIdByMenuItemId := Some (invert (Some m)) |} in
  store_inv {| mappings_slice := Some empty_state |} ∧ action_wf (setMenuItemsToClientIdMapping m) ∧
  dispatch {| mappings_slice := Some empty_state |} (setMenuItemsToClientIdMapping m) =
    Ok {| mappings_slice := Some s |} ∧
  store_inv {| mappings_slice := Some s |}.
Proof.
  intros m s.
  assert (H0 : store_inv {| mappings_slice := Some empty_state |})
    by (exists empty_state; split; [reflexivity|split; [exact I|left; reflexivity]]).
  assert (Ha : action_wf (setMenuItemsToClientIdMapping m)) by (simpl; decide_closed).
  assert (Hd : dispatch {| mappings_slice := Some empty_state |} (setMenuItemsToClientIdMapping m) =
    Ok {| mappings_slice := Some s |}) by reflexivity.
  split_and!; [exact H0|exact Ha|exact Hd|exact (dispatch_preserves_inv _ _ _ H0 Ha Hd)].
Defined.

Lemma run_actions_total_witness :
  let acts := [setMenuItemsToClientIdMapping (obj_set "7" (JString "c1") empty_obj);
               assignMenuItemIdToClientId (JNumber 5) (JString "c1")] in
  reachable {| mappings_slice := Some empty_state |} ∧ Forall action_wf acts ∧
  ∃ st', run_actions {| mappings_slice := Some empty_state |} acts = Ok st' ∧ reachable st'.
Proof.
  intros acts.
  assert (Hr : reachable {| mappings_slice := Some empty_state |}) by (apply reachable_init; reflexivity).
  assert (Ha : Forall action_wf acts) by (repeat constructor; simpl; decide_closed).
  split_and!; [exact Hr|exact Ha|exact (run_actions_total _ acts Hr Ha)].
Defined.

Lemma reachable_backward_sound_witness :
  let m := obj_set "7" (JString "c1") empty_obj in
  let s := {| menuItemIdByClientId := Some m; clientIdByMenuItemId := Some (invert (Some m)) |} in
  reachable {| mappings_slice := Some s |} ∧ backward s "c1" = Some (JString "7") ∧
  ∃ k v, JString "7" = JString k ∧ forward s k = Some v ∧ to_property_key v = "c1".
Proof.
  intros m s.
  assert (Hr : reachable {| mappings_slice := Some s |}).
  { apply (reachable_step {| mappings_slice := Some empty_state |} (setMenuItemsToClientIdMapping m)); [apply reachable_init; reflexivity|simpl; decide_closed|reflexivity]. }
  assert (Hb : backward s "c1" = Some (JString "7")) by (vm_compute; reflexivity).
  split_and!; [exact Hr|exact Hb|exact (reachable_backward_sound _ s "c1" _ Hr eq_refl Hb)].
Defined.

Lemma reachable_backward_complete_witness :
  let m := obj_set "7" (JString "c1") empty_obj in
  let s := {| menuItemIdByClientId := Some m; clientIdByMenuItemId := Some (invert (Some m)) |} in
  reachable {| mappings_slice := Some s |} ∧ forward s "7" = Some (JString "c1") ∧
  ∃ k', backward s (to_property_key (JString "c1")) = Some (JString k').
Proof.
  intros m s.
  assert (Hr : reachable {| mappings_slice := Some s |}).
  { apply (reachable_step {| mappings_slice := Some empty_state |} (setMenuItemsToClientIdMapping m)); [apply reachable_init; reflexivity|simpl; decide_closed|reflexivity]. }
  assert (Hf : forward s "7" = Some (JString "c1")) by reflexivity.
  split_and!; [exact Hr|exact Hf|exact (reachable_backward_complete _ s "7" _ Hr eq_refl Hf)].
Defined.

Lemma reachable_backward_roundtrip_witness :
  let m := obj_set "b" (JString "c2") (obj_set "7" (JString "c1") empty_obj) in
  let s := {| menuItemIdByClientId := Some m; clientIdByMenuItemId := Some (invert (Some m)) |} in
  reachable {| mappings_slice := Some s |} ∧ values_injective m ∧ string_valued m = true ∧
  invert (Some (invert (Some m))) ≡ m.
Proof.
  intros m s.
  assert (Hr : reachable {| mappings_slice := Some s |}).
  { apply (reachable_step {| mappings_slice := Some empty_state |} (setMenuItemsToClientIdMapping m)); [apply reachable_init; reflexivity|simpl; decide_closed|reflexivity]. }
  assert (Hi : values_injective m) by decide_closed.
  assert (Hs : string_valued m = true) by reflexivity.
  split_and!; [exact Hr|exact Hi|exact Hs|exact (reachable_backward_roundtrip _ s m _ Hr eq_refl eq_refl eq_refl Hi Hs)].
Defined.

Lemma reachable_backward_order_independent_witness :
  let m1 := obj_set "b" (JString "y") (obj_set "a" (JString "x") empty_obj) in
  let m2 := obj_set "a" (JString "x") (obj_set "b" (JString "y") empty_obj) in
  let s1 := {| menuItemIdByClientId := Some m1; clientIdByMenuItemId := Some (invert (Some m1)) |} in
  let s2 := {| menuItemIdByClientId := Some m2; clientIdByMenuItemId := Some (invert (Some m2)) |} in
  reachable {| mappings_slice := Some s1 |} ∧ reachable {| mappings_slice := Some s2 |} ∧
  m1 ≡ m2 ∧ values_injective m1 ∧ backward s1 "x" = backward s2 "x".
Proof.
  intros m1 m2 s1 s2.
  assert (Hr1 : reachable {| mappings_slice := Some s1 |}).
  { apply (reachable_step {| mappings_slice := Some empty_state |} (setMenuItemsToClientIdMapping m1)); [apply reachable_init; reflexivity|simpl; decide_closed|reflexivity]. }
  assert (Hr2 : reachable {| mappings_slice := Some s2 |}).
  { apply (reachable_step {| mappings_slice := Some empty_state |} (setMenuItemsToClientIdMapping m2)); [apply reachable_init; reflexivity|simpl; decide_closed|reflexivity]. }
  assert (He : m1 ≡ m2).
  { intros k. unfold m1, m2. rewrite !obj_get_set, obj_get_empty. by repeat case_decide; subst. }
  assert (Hi : values_injective m1) by decide_closed.
  split_and!; [exact Hr1|exact Hr2|exact He|exact Hi|].
  exact (reachable_backward_order_independent _ _ s1 s2 m1 m2 Hr1 Hr2 eq_refl eq_refl eq_refl eq_refl He Hi "x").
Defined.

Lemma reachable_backward_size_witness :
  let m := obj_set "9" (JString "c") (obj_set "7" (JString "c") empty_obj) in
  let s := {| menuItemIdByClientId := Some m; clientIdByMenuItemId := Some (invert (Some m)) |} in
  reachable {| mappings_slice := Some s |} ∧
  ∃ c, clientIdByMenuItemId s = Some c ∧ length (own_keys c) ≤ length (own_keys m) ∧
       length (own_keys c) = 1%nat.
Proof.
  intros m s.
  assert (Hr : reachable {| mappings_slice := Some s |}).
  { apply (reachable_step {| mappings_slice := Some empty_state |} (setMenuItemsToClientIdMapping m));
      [apply reachable_init; reflexivity|simpl; decide_closed|reflexivity]. }
  split; [exact Hr|].
  destruct (reachable_backward_size _ s m Hr eq_refl eq_refl) as (c & Hc & Hle).
  exists c. split_and!; [exact Hc|exact Hle|]. injection Hc as <-. reflexivity.
Defined.

Lemma reachable_assign_takes_effect_witness :
  reachable {| mappings_slice := Some empty_state |} ∧
  ∃ st' s', dispatch {| mappings_slice := Some empty_state |}
              (assignMenuItemIdToClientId (JNumber 5) (JString "c")) = Ok st' ∧ reachable st' ∧
    mappings_slice st' = Some s' ∧ forward s' "5" = Some (JString "c") ∧
    ∃ k, backward s' "c" = Some (JString k).
Proof.
  assert (Hr : reachable {| mappings_slice := Some empty_state |}) by (apply reachable_init; reflexivity).
  split; [exact Hr|]. exact (reachable_assign_takes_effect _ (JNumber 5) (JString "c") Hr).
Defined.

Lemma assign_new_pair_loses_witness :
  let m := obj_set "7" (JString "c1") empty_obj in
  let s := {| menuItemIdByClientId := Some m; clientIdByMenuItemId := Some (invert (Some m)) |} in
  reachable {| mappings_slice := Some s |} ∧
  array_index (to_property_key (JNumber 5)) = Some 5%N ∧ obj_get "7" m = Some (JString "c1") ∧
  ∃ st' s', dispatch {| mappings_slice := Some s |} (assignMenuItemIdToClientId (JNumber 5) (JString "c1")) = Ok st' ∧
    mappings_slice st' = Some s' ∧ forward s' "5" = Some (JString "c1") ∧
    backward s' "c1" ≠ Some (JString "5").
Proof.
  intros m s.
  assert (Hr : reachable {| mappings_slice := Some s |}).
  { apply (reachable_step {| mappings_slice := Some empty_state |} (setMenuItemsToClientIdMapping m)); [apply reachable_init; reflexivity|simpl; decide_closed|reflexivity]. }
  split_and!; [exact Hr|reflexivity|reflexivity|].
  exact (assign_new_pair_loses _ s m (JNumber 5) (JString "c1") 5%N "7" (JString "c1") Hr eq_refl eq_refl
           eq_refl eq_refl eq_refl ltac:(vm_compute; reflexivity)).
Defined.

Lemma dispatch_other_keeps_store_witness :
  let m := obj_set "7" (JString "c1") empty_obj in
  let st := {| mappings_slice := Some {| menuItemIdByClientId := Some m;
                                         clientIdByMenuItemId := Some (invert (Some m)) |} |} in
  reachable st ∧ dispatch st init_action = Ok st.
Proof.
  intros m st.
  assert (Hr : reachable st).
  { apply (reachable_step {| mappings_slice := Some empty_state |} (setMenuItemsToClientIdMapping m)); [apply reachable_init; reflexivity|simpl; decide_closed|reflexivity]. }
  split; [exact Hr|]. apply (dispatch_other_keeps_store st init_action Hr); simpl; discriminate.
Defined.

End MappingsStore.
