(* ===== verification/IdMapper.v ===== *)
(** * The bidirectional id mapper: its contract and its implementations

    What the [mappings] slice promises its readers, stated once as a type
    class of operations with laws: a bulk replacement, a single-pair
    assignment, and reads in both directions, the backward read being sound
    and complete with respect to the forward one.  The reducer of
    [store/reducer.js] is an instance; a finite-map model of the forward
    table is another, and the reducer refines it step by step.  The
    consequences a reader relies on (exact inversion for distinct ids,
    overwrite, idempotence, replacement discarding the past) are proved
    from the laws alone. *)

From S2P Require Import Prelude PropertyKey JsObject Lodash MappingsReducer.

Module IdMapper.
Import PropertyKey JsObject Lodash MappingsReducer.

(** ** The interface *)

Class IdMapperOps (S : Type) := {
  im_valid : S → Prop;
  im_empty : S;
  im_replace_all : obj js_value → S → S;
  im_assign_one : js_value → js_value → S → S;
  im_forward : S → string → option js_value;
  im_backward : S → string → option js_value
}.

Class IdMapperLaws (S : Type) `{!IdMapperOps S} := {
  im_valid_empty : im_valid im_empty;
  im_valid_replace m s : wf m → im_valid s → im_valid (im_replace_all m s);
  im_valid_assign mid cid s : im_valid s → im_valid (im_assign_one mid cid s);
  im_forward_replace m s k : im_valid s → im_forward (im_replace_all m s) k = obj_get k m;
  im_forward_assign mid cid s k : im_valid s →
    im_forward (im_assign_one mid cid s) k =
    if decide (k = to_property_key mid) then Some cid else im_forward s k;
  im_backward_sound s p w : im_valid s → im_backward s p = Some w →
    ∃ k v, w = JString k ∧ im_forward s k = Some v ∧ to_property_key v = p;
  im_backward_complete s k v : im_valid s → im_forward s k = Some v →
    ∃ k', im_backward s (to_property_key v) = Some (JString k')
}.

(** Distinct forward values: no two menu items share a client id. *)
Definition forward_injective {S} `{!IdMapperOps S} (s : S) : Prop :=
  ∀ k1 k2 v1 v2, im_forward s k1 = Some v1 → im_forward s k2 = Some v2 →
    to_property_key v1 = to_property_key v2 → k1 = k2.

(** ** The reducer as an id mapper *)

Definition result_or {A} (r : result A) (d : A) : A :=
  match r with Ok a => a | Throw _ => d end.

#[export] Instance reducer_mapper : IdMapperOps mappings_state := {
  im_valid := mappings_inv;
  im_empty := empty_state;
  im_replace_all m s := result_or (mappings_next (Some s) (setMenuItemsToClientIdMapping m)) s;
  im_assign_one mid cid s := result_or (mappings_next (Some s) (assignMenuItemIdToClientId mid cid)) s;
  im_forward := forward;
  im_backward := backward
}.

(** ** A finite-map model of the forward table *)

Abbreviation abs_state := (gmap string js_value).

(** The specification's view: replacement installs the given pairs,
    assignment inserts one, the backward read is any key holding a value
    that converts to the requested key. *)
Definition abs_replace_all (m : obj js_value) (_ : abs_state) : abs_state :=
  list_to_map (own_entries m).

Definition abs_assign_one (mid cid : js_value) (f : abs_state) : abs_state :=
  <[to_property_key mid := cid]> f.

(** The operations a client performs. *)
Inductive op :=
  | OpReplaceAll (m : obj js_value)
  | OpAssignOne (mid cid : js_value).

Definition op_action (o : op) : action :=
  match o with
  | OpReplaceAll m => setMenuItemsToClientIdMapping m
  | OpAssignOne mid cid => assignMenuItemIdToClientId mid cid
  end.

Definition op_wf (o : op) : Prop :=
  match o with OpReplaceAll m => wf m | OpAssignOne _ _ => True end.

Definition abs_step (f : abs_state) (o : op) : abs_state :=
  match o with
  | OpReplaceAll m => abs_replace_all m f
  | OpAssignOne mid cid => abs_assign_one mid cid f
  end.

(** The refinement relation: the reducer's state satisfies its invariant
    and its forward table reads as the finite map. *)
Definition refines (s : mappings_state) (f : abs_state) : Prop :=
  mappings_inv s ∧ ∀ k, forward s k = f !! k.

(** The reducer run on a sequence of operations, and the model's run. *)
Fixpoint run_ops (s : mappings_state) (ops : list op) : result mappings_state :=
  match ops with
  | [] => Ok s
  | o :: ops' => s' ← mappings_next (Some s) (op_action o); run_ops s' ops'
  end.

Definition abs_run (f : abs_state) (ops : list op) : abs_state := fold_left abs_step ops f.

(** ** The reducer satisfies the laws *)

Lemma reducer_replace_eq m s :
  im_replace_all m s = {| menuItemIdByClientId := Some m; clientIdByMenuItemId := Some (invert (Some m)) |}.
Proof. unfold im_replace_all, reducer_mapper. by rewrite mappings_next_set. Qed.

Lemma reducer_assign_eq mid cid s :
  im_assign_one mid cid s =
  (let b := spread_with (menuItemIdByClientId s) (to_property_key mid) cid in
   {| menuItemIdByClientId := Some b; clientIdByMenuItemId := Some (invert (Some b)) |}).
Proof. unfold im_assign_one, reducer_mapper. by rewrite mappings_next_assign. Qed.

Lemma reducer_backward_sound s p w :
  mappings_inv s → backward s p = Some w →
  ∃ k v, w = JString k ∧ forward s k = Some v ∧ to_property_key v = p.
Proof.
  intros Hinv. rewrite backward_inv by done. unfold forward. destruct Hinv as [Hwf _].
  destruct (menuItemIdByClientId s) as [o|]; [|discriminate]. simpl. by apply invert_sound.
Qed.

Lemma reducer_backward_complete s k v :
  mappings_inv s → forward s k = Some v →
  ∃ k', backward s (to_property_key v) = Some (JString k').
Proof.
  intros Hinv. rewrite backward_inv by done. unfold forward. destruct Hinv as [Hwf _].
  destruct (menuItemIdByClientId s) as [o|]; [|discriminate]. simpl. by apply invert_complete.
Qed.

#[export] Instance reducer_mapper_laws : IdMapperLaws mappings_state.
Proof.
  split.
  - apply mappings_inv_empty.
  - intros m s Hm _. rewrite reducer_replace_eq. split; [done|by right].
  - intros mid cid s [Hwf _]. rewrite reducer_assign_eq. split; [|by right].
    simpl. by apply wf_spread_with.
  - intros m s k _. by rewrite reducer_replace_eq.
  - intros mid cid s k [Hwf _]. rewrite reducer_assign_eq. by apply forward_spread_with.
  - apply reducer_backward_sound.
  - apply reducer_backward_complete.
Qed.

(** ** What every id mapper guarantees *)

Section Client.
Context {S : Type} `{!IdMapperOps S, !IdMapperLaws S}.
Implicit Types (s : S).

(** For distinct forward values, the backward read is exactly the
    inverse of the forward read. *)
Theorem im_backward_exact s p k :
  im_valid s → forward_injective s →
  im_backward s p = Some (JString k) ↔ ∃ v, im_forward s k = Some v ∧ to_property_key v = p.
Proof.
  intros Hs Hinj. split.
  - intros (k' & v & [= <-] & Hk & Hp)%im_backward_sound; eauto.
  - intros (v & Hk & <-).
    destruct (im_backward_complete s k v Hs Hk) as [k' Hk'].
    destruct (im_backward_sound s _ _ Hs Hk') as (k2 & v2 & Heq & Hk2 & Hp).
    injection Heq as Heq. subst. rewrite Hk'. by rewrite (Hinj k2 k v2 v).
Qed.

(** Assigning a pair twice reads like assigning it once. *)
Theorem im_assign_idempotent_reads s mid cid k :
  im_valid s →
  im_forward (im_assign_one mid cid (im_assign_one mid cid s)) k =
  im_forward (im_assign_one mid cid s) k.
Proof.
  intros Hs. rewrite !im_forward_assign by auto using im_valid_assign. by case_decide.
Qed.

(** A bulk replacement forgets the state it replaces. *)
Theorem im_replace_discards m s1 s2 k :
  im_valid s1 → im_valid s2 →
  im_forward (im_replace_all m s1) k = im_forward (im_replace_all m s2) k.
Proof. intros. by rewrite !im_forward_replace. Qed.

End Client.

(** ** Refinement of the finite-map model *)

Lemma refines_step s f o :
  refines s f → op_wf o →
  ∃ s', mappings_next (Some s) (op_action o) = Ok s' ∧ refines s' (abs_step f o).
Proof.
  intros [Hinv Hf] Ho. destruct o as [m|mid cid]; simpl in *.
  - rewrite mappings_next_set by done. eexists. split; [done|]. split; [split; [done|by right]|].
    intros k. unfold forward. simpl. by apply obj_get_to_gmap.
  - rewrite mappings_next_assign by done. eexists. split; [done|].
    split; [split; [simpl; apply wf_spread_with, Hinv|by right]|].
    intros k. unfold forward at 1. simpl. rewrite forward_spread_with by apply Hinv.
    unfold abs_assign_one. rewrite lookup_insert. by repeat case_decide; subst.
Qed.

Lemma refines_empty : refines empty_state ∅.
Proof. split; [apply mappings_inv_empty|done]. Qed.

(** C11: Refinement: on any sequence of well-formed operations the reducer
    never throws, keeps its invariant, and its forward table reads as the
    finite-map model run on the same operations. *)
Theorem run_ops_refines s f ops :
  refines s f → Forall op_wf ops →
  ∃ s', run_ops s ops = Ok s' ∧ refines s' (abs_run f ops).
Proof.
  intros Hr Hops. revert s f Hr. induction Hops as [|o ops Ho _ IH]; intros s f Hr.
  { by exists s. }
  destruct (refines_step s f o Hr Ho) as (s1 & Hs1 & Hr1).
  simpl. rewrite Hs1. simpl. apply IH, Hr1.
Qed.

(** ** Witnesses *)

Lemma run_ops_refines_witness :
  let ops := [OpReplaceAll (obj_set "7" (JString "c1") empty_obj); OpAssignOne (JNumber 5) (JString "c")] in
  refines empty_state ∅ ∧ Forall op_wf ops ∧
  ∃ s', run_ops empty_state ops = Ok s' ∧ refines s' (abs_run ∅ ops).
Proof.
  intros ops.
  assert (Hr : refines empty_state ∅) by (split; [split; [exact I|left; reflexivity]|intros k; reflexivity]).
  assert (Ho : Forall op_wf ops) by (repeat constructor; simpl; decide_closed).
  split_and!; [exact Hr|exact Ho|exact (run_ops_refines _ _ ops Hr Ho)].
Defined.

End IdMapper.
