(* ===== verification/FormatTypes.v ===== *)
(** * [useFormatTypes]: the editable-tree handlers contributed by format types

    [src/packages/rich-text/src/component/use-format-types.js].  The hook
    reads the registered format types and folds over them twice: once with
    the registry's [select] to collect, for the types that declare them,
    the props each type selects ([selectProps], keyed by the type's name),
    the values those props take ([dependencies]), and the handlers that
    prepare the editable tree ([prepareHandlers], or [valueHandlers] for a
    type that also reacts to changes); once with [dispatch] to build the
    change handlers, each from the type's dispatch props merged over its
    selected props.  [select], [dispatch] and the handlers the types build
    are opaque here: the section abstracts over their types. *)

From S2P Require Import Prelude PropertyKey JsObject.

Module FormatTypes.
Import PropertyKey JsObject.

Section Hook.
Context {Select Dispatch Handler : Type}.

(** [{ richTextIdentifier: identifier, blockClientId: clientId }] *)
Record args := {
  richTextIdentifier : string;
  blockClientId : string
}.

(** The settings of a registered format type, with the four optional
    experimental callbacks the hook tests for. *)
Record format_type := {
  name : string;
  getPropsForEditableTreePreparation : option (Select → args → obj js_value);
  createPrepareEditableTree : option (option (obj js_value) → args → Handler);
  createOnChangeEditableValue : option (option (obj js_value) → args → Handler);
  getPropsForEditableTreeChangeHandler : option (Dispatch → args → obj js_value)
}.

(** The accumulator of the first [reduce]. *)
Record select_acc := {
  dependencies : list js_value;
  selectProps : obj (obj js_value);
  prepareHandlers : list Handler;
  valueHandlers : list Handler
}.

Definition select_acc_init : select_acc :=
  {| dependencies := []; selectProps := empty_obj; prepareHandlers := []; valueHandlers := [] |}.

(** One step of the first [reduce], lines 28-64. *)
Definition select_step (select : Select) (identifier clientId : string)
    (acc : select_acc) (settings : format_type) : select_acc :=
  let a := {| richTextIdentifier := identifier; blockClientId := clientId |} in
  let '(selected, acc1) :=
    match getPropsForEditableTreePreparation settings with
    | Some getProps =>
        let sel := getProps select a in
        (Some sel,
         {| dependencies := dependencies acc ++ obj_values sel;
            selectProps := obj_set (name settings) sel (selectProps acc);
            prepareHandlers := prepareHandlers acc;
            valueHandlers := valueHandlers acc |})
    | None => (None, acc)
    end in
  match createPrepareEditableTree settings with
  | Some createPrepare =>
      let handler := createPrepare selected a in
      match createOnChangeEditableValue settings with
      | Some _ =>
          {| dependencies := dependencies acc1; selectProps := selectProps acc1;
             prepareHandlers := prepareHandlers acc1;
             valueHandlers := valueHandlers acc1 ++ [handler] |}
      | None =>
          {| dependencies := dependencies acc1; selectProps := selectProps acc1;
             prepareHandlers := prepareHandlers acc1 ++ [handler];
             valueHandlers := valueHandlers acc1 |}
      end
  | None => acc1
  end.

(** The first [useSelect] callback: [formatTypes.reduce(..., init)]. *)
Definition select_props (select : Select) (identifier clientId : string)
    (formatTypes : list format_type) : select_acc :=
  fold_left (select_step select identifier clientId) formatTypes select_acc_init.

(** One step of the second [reduce], lines 76-107. *)
Definition change_step (dispatch : Dispatch) (identifier clientId : string)
    (selectProps : obj (obj js_value)) (acc : list Handler) (settings : format_type)
    : list Handler :=
  let a := {| richTextIdentifier := identifier; blockClientId := clientId |} in
  let dispatcher :=
    match getPropsForEditableTreeChangeHandler settings with
    | Some getProps =>
        let d := getProps dispatch a in
        Some (assign_entries (own_entries d)
                (assign_entries (spread_entries (obj_get (name settings) selectProps)) empty_obj))
    | None => None
    end in
  match createOnChangeEditableValue settings with
  | Some createOnChange => acc ++ [createOnChange dispatcher a]
  | None => acc
  end.

(** The [__unstableUseDispatchWithMap] callback. *)
Definition change_handlers (dispatch : Dispatch) (identifier clientId : string)
    (selectProps : obj (obj js_value)) (formatTypes : list format_type) : list Handler :=
  fold_left (change_step dispatch identifier clientId selectProps) formatTypes [].

(** What the hook returns. *)
Record hook_result := {
  r_formatTypes : list format_type;
  r_prepareHandlers : list Handler;
  r_valueHandlers : list Handler;
  r_changeHandlers : list Handler;
  r_dependencies : list js_value
}.

(** [useFormatTypes({ clientId, identifier })] with the registered format
    types and the registry's [select] and [dispatch]. *)
Definition useFormatTypes (select : Select) (dispatch : Dispatch)
    (formatTypes : list format_type) (clientId identifier : string) : hook_result :=
  let acc := select_props select identifier clientId formatTypes in
  {| r_formatTypes := formatTypes;
     r_prepareHandlers := prepareHandlers acc;
     r_valueHandlers := valueHandlers acc;
     r_changeHandlers := change_handlers dispatch identifier clientId (selectProps acc) formatTypes;
     r_dependencies := dependencies acc |}.

(** ** A reference description of the two folds

    What each format type contributes, on its own. *)

Definition selected_of (select : Select) (a : args) (f : format_type) : option (obj js_value) :=
  (λ getProps, getProps select a) <$> getPropsForEditableTreePreparation f.

Definition prepare_handler_of (select : Select) (a : args) (f : format_type) : option Handler :=
  match createPrepareEditableTree f, createOnChangeEditableValue f with
  | Some cp, None => Some (cp (selected_of select a f) a)
  | _, _ => None
  end.

Definition value_handler_of (select : Select) (a : args) (f : format_type) : option Handler :=
  match createPrepareEditableTree f, createOnChangeEditableValue f with
  | Some cp, Some _ => Some (cp (selected_of select a f) a)
  | _, _ => None
  end.

Definition select_entry_of (select : Select) (a : args) (f : format_type)
    : option (string * obj js_value) :=
  (λ sel, (name f, sel)) <$> selected_of select a f.

Definition dispatcher_of (dispatch : Dispatch) (a : args) (selectProps : obj (obj js_value))
    (f : format_type) : option (obj js_value) :=
  (λ getProps, assign_entries (own_entries (getProps dispatch a))
                 (assign_entries (spread_entries (obj_get (name f) selectProps)) empty_obj))
    <$> getPropsForEditableTreeChangeHandler f.

Definition change_handler_of (dispatch : Dispatch) (a : args) (selectProps : obj (obj js_value))
    (f : format_type) : option Handler :=
  (λ co, co (dispatcher_of dispatch a selectProps f) a) <$> createOnChangeEditableValue f.

End Hook.

Arguments format_type : clear implicits.
Arguments select_acc : clear implicits.
Arguments hook_result : clear implicits.

(** ** The folds against their reference *)

Section Lemmas.
Context {Select Dispatch Handler : Type}.
Implicit Types (fts : list (format_type Select Dispatch Handler)).

Lemma select_fold_spec (select : Select) identifier clientId fts acc :
  let a := {| richTextIdentifier := identifier; blockClientId := clientId |} in
  fold_left (select_step select identifier clientId) fts acc =
  {| dependencies := dependencies acc ++
       concat (map (λ f, from_option obj_values [] (selected_of select a f)) fts);
     selectProps := assign_entries (omap (select_entry_of select a) fts) (selectProps acc);
     prepareHandlers := prepareHandlers acc ++ omap (prepare_handler_of select a) fts;
     valueHandlers := valueHandlers acc ++ omap (value_handler_of select a) fts |}.
Proof.
  intros a. revert acc. induction fts as [|f fts IH]; intros acc; simpl.
  { destruct acc. by rewrite !app_nil_r. }
  rewrite IH. unfold select_step, selected_of, select_entry_of, prepare_handler_of, value_handler_of.
  destruct f as [n [gp|] [cp|] [co|] gc]; simpl; by rewrite <-?app_assoc.
Qed.

Lemma change_fold_spec (dispatch : Dispatch) identifier clientId selectProps fts acc :
  let a := {| richTextIdentifier := identifier; blockClientId := clientId |} in
  fold_left (change_step (Handler := Handler) dispatch identifier clientId selectProps) fts acc =
  acc ++ omap (change_handler_of dispatch a selectProps) fts.
Proof.
  intros a. revert acc. induction fts as [|f fts IH]; intros acc; simpl; [by rewrite app_nil_r|].
  rewrite IH. unfold change_step, change_handler_of, dispatcher_of.
  destruct f as [n gp cp [co|] [gc|]]; simpl; by rewrite <-?app_assoc.
Qed.

Lemma select_props_spec (select : Select) identifier clientId fts :
  let a := {| richTextIdentifier := identifier; blockClientId := clientId |} in
  selectProps (select_props select identifier clientId fts) =
  assign_entries (omap (select_entry_of (Handler := Handler) select a) fts) empty_obj.
Proof. unfold select_props. by rewrite select_fold_spec. Qed.

(** C13: The hook's two folds compute, format type by format type and in
    registration order, the contribution each type makes on its own:
    a prepare or value handler built from the type's selected props, the
    values of those props, and a change handler built from its merged
    dispatcher. *)
Theorem useFormatTypes_spec (select : Select) (dispatch : Dispatch) fts clientId identifier :
  let a := {| richTextIdentifier := identifier; blockClientId := clientId |} in
  let sp := assign_entries (omap (select_entry_of (Handler := Handler) select a) fts) empty_obj in
  useFormatTypes select dispatch fts clientId identifier =
  {| r_formatTypes := fts;
     r_prepareHandlers := omap (prepare_handler_of select a) fts;
     r_valueHandlers := omap (value_handler_of select a) fts;
     r_changeHandlers := omap (change_handler_of dispatch a sp) fts;
     r_dependencies := concat (map (λ f, from_option obj_values [] (selected_of select a f)) fts) |}.
Proof.
  intros a sp. unfold useFormatTypes, select_props, change_handlers.
  rewrite select_fold_spec, change_fold_spec. done.
Qed.

(** C26: Every format type with [__experimentalCreatePrepareEditableTree]
    contributes exactly one handler, to [prepareHandlers] or to
    [valueHandlers]. *)
Theorem handler_count (select : Select) (dispatch : Dispatch) fts clientId identifier :
  let r := useFormatTypes select dispatch fts clientId identifier in
  length (r_prepareHandlers r) + length (r_valueHandlers r) =
  length (filter (λ f, is_Some (createPrepareEditableTree f)) fts).
Proof.
  simpl. unfold select_props. rewrite !select_fold_spec. simpl.
  induction fts as [|f fts IH]; [done|]. unfold omap in *.
  destruct f as [n gp [cp|] [co|] gc].
  - rewrite filter_cons_True by (simpl; by eexists). simpl in IH |- *. lia.
  - rewrite filter_cons_True by (simpl; by eexists). simpl in IH |- *. lia.
  - rewrite filter_cons_False by (simpl; by intros []). simpl in IH |- *. lia.
  - rewrite filter_cons_False by (simpl; by intros []). simpl in IH |- *. lia.
Qed.

(** C27: When every format type that reacts to changes also prepares the
    editable tree, [valueHandlers] and [changeHandlers] are built from the
    same format types, in the same order, and have the same length. *)
Theorem value_change_aligned (select : Select) (dispatch : Dispatch) fts clientId identifier :
  Forall (λ f, is_Some (createOnChangeEditableValue f) → is_Some (createPrepareEditableTree f)) fts →
  let r := useFormatTypes select dispatch fts clientId identifier in
  length (r_valueHandlers r) = length (r_changeHandlers r).
Proof.
  intros Hall. simpl. unfold select_props, change_handlers.
  rewrite select_fold_spec, change_fold_spec. simpl.
  generalize (assign_entries (omap (select_entry_of select
    {| richTextIdentifier := identifier; blockClientId := clientId |}) fts) empty_obj) as sp.
  intros sp. induction Hall as [|f fts Hf _ IH]; [done|]. unfold omap in *.
  destruct f as [n gp [cp|] [co|] gc]; simpl in *; rewrite ?IH; try done.
  destruct Hf as [? [=]]. by eexists.
Qed.

Lemma selectProps_lookup_unique (select : Select) a fts f gp :
  NoDup (map name fts) → f ∈ fts → getPropsForEditableTreePreparation f = Some gp →
  obj_get (name f) (assign_entries (omap (select_entry_of (Handler := Handler) select a) fts) empty_obj)
  = Some (gp select a).
Proof.
  intros Hnd Hf Hgp. rewrite obj_get_assign_entries.
  rewrite (find_last_unique _ _ (name f, gp select a)); [done|..].
  - apply list_elem_of_omap. exists f. split; [done|]. unfold select_entry_of, selected_of. by rewrite Hgp.
  - by rewrite bool_decide_eq_true.
  - intros [k sel] (g & Hg & Hsel)%list_elem_of_omap Hk%bool_decide_eq_true. simpl in Hk. subst k.
    unfold select_entry_of, selected_of in Hsel.
    destruct (getPropsForEditableTreePreparation g) as [gp'|] eqn:Hgp'; [|discriminate].
    simpl in Hsel. injection Hsel as Hname <-.
    assert (g = f) as -> by (apply (NoDup_map_eq name fts); congruence).
    congruence.
Qed.

(** [selectProps[n]] after the first fold: the selection of the last
    format type named [n] that declares
    [__experimentalGetPropsForEditableTreePreparation]. *)
Lemma selectProps_get (select : Select) identifier clientId fts n :
  let a := {| richTextIdentifier := identifier; blockClientId := clientId |} in
  obj_get n (selectProps (select_props (Handler := Handler) select identifier clientId fts)) =
  find_last (λ f, bool_decide (name f = n) && bool_decide (is_Some (getPropsForEditableTreePreparation f))) fts
    ≫= selected_of select a.
Proof.
  intros a. rewrite select_props_spec, obj_get_assign_entries, find_last_omap, obj_get_empty.
  rewrite (find_last_ext _ (λ f, bool_decide (name f = n) &&
             bool_decide (is_Some (getPropsForEditableTreePreparation f)))).
  - destruct (find_last _ fts) as [f|]; simpl; [|done].
    unfold select_entry_of, a. by destruct (selected_of select _ f).
  - intros f _. unfold select_entry_of, selected_of.
    destruct (getPropsForEditableTreePreparation f); simpl;
      repeat case_bool_decide; naive_solver.
Qed.

(** One step of the second fold, for a type with both change callbacks:
    its handler receives the dispatch props merged over the props selected
    under its name. *)
Lemma change_step_get (dispatch : Dispatch) identifier clientId sp acc
    (f : format_type Select Dispatch Handler) gc co :
  let a := {| richTextIdentifier := identifier; blockClientId := clientId |} in
  getPropsForEditableTreeChangeHandler f = Some gc → createOnChangeEditableValue f = Some co →
  wf (gc dispatch a) → from_option wf True (obj_get (name f) sp) →
  ∃ d, change_step (Handler := Handler) dispatch identifier clientId sp acc f = acc ++ [co (Some d) a] ∧
    ∀ k, obj_get k d = match obj_get k (gc dispatch a) with
                       | Some v => Some v
                       | None => obj_get (name f) sp ≫= obj_get k
                       end.
Proof.
  intros a Hgc Hco Hwd Hws. unfold a in *. unfold change_step. rewrite Hgc, Hco.
  eexists. split; [reflexivity|]. intros k. rewrite obj_get_assign_own by done.
  destruct (obj_get k (gc dispatch _)); [done|].
  destruct (obj_get (name f) sp) as [sel|]; simpl in *.
  - rewrite obj_get_assign_own, obj_get_empty by done. by destruct (obj_get k sel).
  - apply obj_get_empty.
Qed.

(** C28: With distinct format type names, the change handler of a format
    type is built, in the hook's second fold, from a dispatcher that reads
    the type's own dispatch props first, then its own selected props. *)
Theorem change_step_merges_own_props (select : Select) (dispatch : Dispatch) fts f gp gc co
    identifier clientId acc :
  let a := {| richTextIdentifier := identifier; blockClientId := clientId |} in
  NoDup (map name fts) → f ∈ fts →
  getPropsForEditableTreePreparation f = Some gp →
  getPropsForEditableTreeChangeHandler f = Some gc →
  createOnChangeEditableValue f = Some co →
  wf (gp select a) → wf (gc dispatch a) →
  ∃ d, change_step dispatch identifier clientId
         (selectProps (select_props select identifier clientId fts)) acc f = acc ++ [co (Some d) a] ∧
    ∀ k, obj_get k d = match obj_get k (gc dispatch a) with
                       | Some v => Some v
                       | None => obj_get k (gp select a)
                       end.
Proof.
  intros a Hnd Hf Hgp Hgc Hco Hws Hwd.
  assert (Hsel : obj_get (name f) (selectProps (select_props select identifier clientId fts))
                 = Some (gp select a))
    by (rewrite select_props_spec; by apply selectProps_lookup_unique).
  destruct (change_step_get dispatch identifier clientId
              (selectProps (select_props (Handler := Handler) select identifier clientId fts)) acc f gc co Hgc Hco Hwd)
    as (d & Hd & Hget); [by rewrite Hsel|].
  exists d. split; [exact Hd|]. intros k. by rewrite Hget, Hsel.
Qed.

(** C29: Format types that share a name share one slot of [selectProps]:
    the change handler of an earlier type [f1] receives a dispatcher that
    reads, under its own dispatch props, the props selected by the last
    type [f2] of that name that selects props. *)
Theorem duplicate_names_leak_props (select : Select) (dispatch : Dispatch) fts1 fts2 fts3 f1 f2
    gp2 gc1 co1 identifier clientId acc :
  let a := {| richTextIdentifier := identifier; blockClientId := clientId |} in
  let fts := fts1 ++ f1 :: fts2 ++ f2 :: fts3 in
  name f1 = name f2 → getPropsForEditableTreePreparation f2 = Some gp2 →
  Forall (λ f, name f ≠ name f2 ∨ getPropsForEditableTreePreparation f = None) fts3 →
  getPropsForEditableTreeChangeHandler f1 = Some gc1 → createOnChangeEditableValue f1 = Some co1 →
  wf (gp2 select a) → wf (gc1 dispatch a) →
  ∃ d, change_step dispatch identifier clientId
         (selectProps (select_props select identifier clientId fts)) acc f1 = acc ++ [co1 (Some d) a] ∧
    ∀ k, obj_get k d = match obj_get k (gc1 dispatch a) with
                       | Some v => Some v
                       | None => obj_get k (gp2 select a)
                       end.
Proof.
  intros a fts Hname Hgp2 Hrest Hgc1 Hco1 Hws Hwd.
  assert (Hsel : obj_get (name f1) (selectProps (select_props select identifier clientId fts))
                 = Some (gp2 select a)).
  { rewrite selectProps_get. unfold fts. rewrite app_comm_cons, app_assoc, find_last_app. simpl.
    rewrite (proj2 (find_last_None _ fts3)).
    - rewrite Hname, Hgp2, !bool_decide_eq_true_2 by (done || by eexists). simpl.
      unfold selected_of. by rewrite Hgp2.
    - eapply Forall_impl; [exact Hrest|]. intros f [Hn|Hn]; rewrite Hname.
      + by rewrite bool_decide_eq_false_2.
      + rewrite Hn. rewrite (bool_decide_eq_false_2 (is_Some None)) by by intros [].
        apply andb_false_r. }
  destruct (change_step_get dispatch identifier clientId
              (selectProps (select_props (Handler := Handler) select identifier clientId fts)) acc f1 gc1 co1 Hgc1 Hco1 Hwd)
    as (d & Hd & Hget); [by rewrite Hsel|].
  exists d. split; [exact Hd|]. intros k. by rewrite Hget, Hsel.
Qed.

End Lemmas.

(** ** Witnesses *)

Lemma value_change_aligned_witness :
  let ft : format_type unit unit nat :=
    {| name := "core/link";
       getPropsForEditableTreePreparation := None;
       createPrepareEditableTree := Some (λ _ _, 1);
       createOnChangeEditableValue := Some (λ _ _, 2);
       getPropsForEditableTreeChangeHandler := None |} in
  Forall (λ f, is_Some (createOnChangeEditableValue f) → is_Some (createPrepareEditableTree f)) [ft] ∧
  length (r_valueHandlers (useFormatTypes tt tt [ft] "block-1" "content")) =
  length (r_changeHandlers (useFormatTypes tt tt [ft] "block-1" "content")).
Proof.
  intros ft.
  assert (H : Forall (λ f, is_Some (createOnChangeEditableValue f) → is_Some (createPrepareEditableTree f)) [ft])
    by (repeat constructor; intros _; simpl; eexists; reflexivity).
  split; [exact H|exact (value_change_aligned tt tt [ft] "block-1" "content" H)].
Defined.

Lemma change_step_merges_own_props_witness :
  let sel := obj_set "a" (JNumber 1) (obj_set "b" (JNumber 2) empty_obj) in
  let dis := obj_set "a" (JNumber 9) empty_obj in
  let ft : format_type unit unit (option (obj js_value)) :=
    {| name := "core/x"; getPropsForEditableTreePreparation := Some (λ _ _, sel);
       createPrepareEditableTree := None; createOnChangeEditableValue := Some (λ d _, d);
       getPropsForEditableTreeChangeHandler := Some (λ _ _, dis) |} in
  NoDup (map name [ft]) ∧ wf sel ∧ wf dis ∧
  ∃ d, change_step tt "content" "block-1" (selectProps (select_props tt "content" "block-1" [ft])) [] ft
         = [Some d] ∧
       obj_get "a" d = Some (JNumber 9) ∧ obj_get "b" d = Some (JNumber 2).
Proof.
  intros sel dis ft.
  assert (Hn : NoDup (map name [ft])) by decide_closed.
  assert (Hs : wf sel) by decide_closed.
  assert (Hd : wf dis) by decide_closed.
  split_and!; [exact Hn|exact Hs|exact Hd|].
  destruct (change_step_merges_own_props tt tt [ft] ft (λ _ _, sel) (λ _ _, dis) (λ d _, d)
              "content" "block-1" [] Hn ltac:(left) eq_refl eq_refl eq_refl Hs Hd) as (d & Hcs & Hget).
  exists d. split_and!; [exact Hcs|rewrite Hget; reflexivity|rewrite Hget; reflexivity].
Defined.

Lemma duplicate_names_leak_props_witness :
  let f1 : format_type unit unit (option (obj js_value)) :=
    {| name := "core/x";
       getPropsForEditableTreePreparation := Some (λ _ _, obj_set "a" (JNumber 1) empty_obj);
       createPrepareEditableTree := None;
       createOnChangeEditableValue := Some (λ d _, d);
       getPropsForEditableTreeChangeHandler := Some (λ _ _, empty_obj) |} in
  let f2 : format_type unit unit (option (obj js_value)) :=
    {| name := "core/x";
       getPropsForEditableTreePreparation := Some (λ _ _, obj_set "a" (JNumber 2) empty_obj);
       createPrepareEditableTree := None;
       createOnChangeEditableValue := None;
       getPropsForEditableTreeChangeHandler := None |} in
  ∃ d, change_step tt "content" "block-1" (selectProps (select_props tt "content" "block-1" [f1; f2])) [] f1
         = [Some d] ∧
       obj_get "a" d = Some (JNumber 2).
Proof.
  intros f1 f2.
  destruct (duplicate_names_leak_props tt tt [] [] [] f1 f2 (λ _ _, obj_set "a" (JNumber 2) empty_obj)
              (λ _ _, empty_obj) (λ d _, d) "content" "block-1" []
              eq_refl eq_refl (List.Forall_nil _) eq_refl eq_refl ltac:(decide_closed) ltac:(decide_closed))
    as (d & Hcs & Hget).
  exists d. split; [exact Hcs|rewrite Hget; reflexivity].
Defined.

End FormatTypes.
