(* ===== verification/BlockEditorArea.v ===== *)
(** * [BlockEditorArea]: the menu editing panel as a state machine

    [src/packages/edit-navigation/src/components/menu-editor/block-editor-area.js].
    The component reads the block editor's store (the first root block, the
    selection, navigation mode) and the menu entity [getMenu(menuId)], keeps
    the "automatically add pages" checkbox in local state ([useState]),
    and runs two effects after each commit: one that resets the checkbox
    from the menu when [menuId] changes, one that selects the root block
    when it changes.  Clicking the checkbox flips the local state and saves
    the menu with the flipped value.

    A configuration is the world the component reads plus its hook state
    and its last render: the values it computes and the JSX tree [view] it
    returns, with the callbacks bound in it; [handle] is one event (a new
    world after a store or props change, a click on the checkbox, a click
    on "Save navigation", or [EvFire]: a call of the callback the rendered
    tree holds at an element's prop), with the store actions and callbacks
    it calls as output.
    React re-renders after a state update and runs an effect when its
    dependency changed ([Object.is]); both are written out: [commit] is
    one pass, [settle] the loop of passes with fuel. *)

From S2P Require Import Prelude PropertyKey ReactElement JsObject.

Module BlockEditorArea.
Import PropertyKey ReactElement JsObject.

(** ** What the component reads *)

Record props := {
  menuId : js_value
}.

(** The part of [core/block-editor] the component selects. *)
Record editor_store := {
  rootBlocks : list string;           (** [getBlocks()], by client id *)
  allBlocks : list string;            (** the blocks [getBlock] finds *)
  selectionStart : option string;     (** [getBlockSelectionStart()] *)
  navigationMode : bool               (** [isNavigationMode()] *)
}.

(** The menu entities of [core], keyed by id. *)
Record core_store := {
  menus : list (js_value * obj js_value)
}.

Record world := {
  w_props : props;
  w_editor : editor_store;
  w_core : core_store
}.

(** ** The selectors, lines 40-64 *)

Definition getMenu (c : core_store) (id : js_value) : option (obj js_value) := assoc_get id (menus c).

(** [getBlocks()[0]?.clientId] *)
Definition rootBlockId (w : world) : option string := head (rootBlocks (w_editor w)).

(** [!!selectionStartClientId && !!getBlock(selectionStartClientId)] *)
Definition hasSelectedBlock (w : world) : bool :=
  match selectionStart (w_editor w) with
  | Some id => to_boolean (JString id) && bool_decide (id ∈ allBlocks (w_editor w))
  | None => false
  end.

Definition menu (w : world) : option (obj js_value) := getMenu (w_core w) (menuId (w_props w)).

(** [menu.auto_add] on a loaded menu. *)
Definition auto_add_of (m : obj js_value) : js_value := default JUndefined (obj_get "auto_add" m).

(** Lines 66-69: [autoAdd] is [false] until the menu is loaded. *)
Definition autoAdd (w : world) : js_value :=
  match menu w with Some m => auto_add_of m | None => JBool false end.

(** [classnames(base, { 'is-hidden': cond })] *)
Definition classnames_hidden (base : string) (cond : bool) : string :=
  if cond then base +:+ " is-hidden" else base.

Definition toolbar_base : string := "edit-navigation-menu-editor__block-editor-toolbar".

(** ** Hook state and renders *)

Record hooks := {
  autoAddPages : js_value;            (** the [useState] cell *)
  dep_menuId : js_value;              (** the last [[menuId]] an effect saw *)
  dep_rootBlockId : option string     (** the last [[rootBlockId]] *)
}.

(** The callbacks a render binds in its markup: [saveBlocks] (a prop),
    the checkbox's [onChange] closure with the [menu] and [autoAddPages]
    it captured, and [onDeleteMenu] (a prop handed to [DeleteMenuButton]). *)
Inductive handler :=
  | OnSaveBlocks
  | OnCheckboxChange (menu : option (obj js_value)) (autoAddPages : js_value)
  | OnDeleteMenu.

(** Lines 85-135: the JSX the component returns. *)
Definition view (w : world) (h : hooks) : element handler :=
  Elem "Card" [("className", PString "edit-navigation-menu-editor__block-editor-area")]
    [Elem "CardHeader" []
       [Elem "div" [("className", PString "edit-navigation-menu-editor__block-editor-area-header-text")]
          [Text "Navigation menu"];
        Elem "Button" [("isPrimary", PBool true); ("onClick", PHandler OnSaveBlocks)]
          [Text "Save navigation"]];
     Elem "CardBody" []
       [Elem "NavigableToolbar"
          [("className", PString (classnames_hidden toolbar_base (navigationMode (w_editor w))));
           ("aria-label", PText "Block tools")]
          (if hasSelectedBlock w then [Elem "BlockToolbar" [("hideDragHandle", PBool true)] []] else []);
        Elem "Popover.Slot" [("name", PString "block-toolbar")] [];
        Elem "WritingFlow" [] [Elem "ObserveTyping" [] [Elem "BlockList" [] []]];
        Elem "CheckboxControl"
          [("label", PText "Automatically add new top-level pages to this menu");
           ("help", PText "New menu items will automatically appear in this menu as new top level pages are added to your site");
           ("onChange", PHandler (OnCheckboxChange (menu w) (autoAddPages h)));
           ("checked", PValue (autoAddPages h))] []];
     Elem "CardFooter" []
       [Elem "DeleteMenuButton" [("menuId", PValue (menuId (w_props w))); ("onDelete", PHandler OnDeleteMenu)] []]].

(** What a render produces: the values the markup shows, the values the
    checkbox's [onChange] closure captured, and the markup itself. *)
Record rendered := {
  toolbarClass : string;
  showBlockToolbar : bool;
  checked : js_value;
  closure_menu : option (obj js_value);
  closure_autoAddPages : js_value;
  tree : element handler
}.

Definition render (w : world) (h : hooks) : rendered :=
  {| toolbarClass := classnames_hidden toolbar_base (navigationMode (w_editor w));
     showBlockToolbar := hasSelectedBlock w;
     checked := autoAddPages h;
     closure_menu := menu w;
     closure_autoAddPages := autoAddPages h;
     tree := view w h |}.

Record config := {
  c_world : world;
  c_hooks : hooks;
  c_render : rendered
}.

(** The store actions the component dispatches, and the callback it calls. *)
Inductive output :=
  | SelectBlock (clientId : string)
  | SaveMenu (m : obj js_value)
  | SaveBlocks
  | DeleteMenu.            (** [onDeleteMenu] called by [DeleteMenuButton] *)

Inductive event :=
  | EvUpdate (w : world)
  | EvClickCheckbox
  | EvClickSave
  | EvFire (type prop : string).   (** the callback [prop] of the first element of [type] is called *)

(** ** Effects, lines 73-83 *)

(** [setAutoAddPages(menu.auto_add)]: reading [auto_add] of an unloaded
    menu throws. *)
Definition effect_auto_add (w : world) (h : hooks) : result hooks :=
  match menu w with
  | None => Throw (TypeError "Cannot read properties of undefined (reading 'auto_add')")
  | Some m => Ok {| autoAddPages := auto_add_of m; dep_menuId := dep_menuId h;
                   dep_rootBlockId := dep_rootBlockId h |}
  end.

(** [if (rootBlockId) selectBlock(rootBlockId)] *)
Definition effect_select_root (w : world) : list output :=
  match rootBlockId w with
  | Some id => if to_boolean (JString id) then [SelectBlock id] else []
  | None => []
  end.

(** The commit after a render: each effect runs on the first commit and
    when its dependency changed, in the order they are declared; then the
    dependencies are recorded. *)
Definition commit (first : bool) (w : world) (h : hooks) : result (hooks * list output) :=
  h1 ← (if first || negb (bool_decide (menuId (w_props w) = dep_menuId h))
        then effect_auto_add w h else Ok h);
  let outs := if first || negb (bool_decide (rootBlockId w = dep_rootBlockId h))
              then effect_select_root w else [] in
  Ok ({| autoAddPages := autoAddPages h1; dep_menuId := menuId (w_props w);
         dep_rootBlockId := rootBlockId w |}, outs).

(** The first render ([useState(autoAdd)]) and its commit.  A state update
    in an effect re-renders with the same world; the configuration keeps
    the render of the final state. *)
Definition mount (w : world) : result (config * list output) :=
  let h0 := {| autoAddPages := autoAdd w; dep_menuId := menuId (w_props w);
               dep_rootBlockId := rootBlockId w |} in
  '(h, outs) ← commit true w h0;
  Ok ({| c_world := w; c_hooks := h; c_render := render w h |}, outs).

(** ** Events *)

(** Lines 121-127: the checkbox's [onChange], with the menu [m] and the
    state [cur] its render captured: [setAutoAddPages(!autoAddPages)] and
    [saveMenu({ ...menu, auto_add: !autoAddPages })]. *)
Definition click_checkbox (c : config) (m : option (obj js_value)) (cur : js_value)
    : hooks * list output :=
  let v := JBool (negb (to_boolean cur)) in
  ({| autoAddPages := v; dep_menuId := dep_menuId (c_hooks c);
      dep_rootBlockId := dep_rootBlockId (c_hooks c) |},
   [SaveMenu (spread_with m "auto_add" v)]).

(** The state update re-renders the same world and commits. *)
Definition on_checkbox_change (c : config) (m : option (obj js_value)) (cur : js_value)
    : result (config * list output) :=
  let '(h1, outs1) := click_checkbox c m cur in
  '(h, outs2) ← commit false (c_world c) h1;
  Ok ({| c_world := c_world c; c_hooks := h; c_render := render (c_world c) h |}, outs1 ++ outs2).

(** Calling a callback the render bound. *)
Definition run_handler (c : config) (hd : handler) : result (config * list output) :=
  match hd with
  | OnSaveBlocks => Ok (c, [SaveBlocks])
  | OnCheckboxChange m cur => on_checkbox_change c m cur
  | OnDeleteMenu => Ok (c, [DeleteMenu])
  end.

Definition handle (c : config) (e : event) : result (config * list output) :=
  match e with
  | EvUpdate w' =>
      '(h, outs) ← commit false w' (c_hooks c);
      Ok ({| c_world := w'; c_hooks := h; c_render := render w' h |}, outs)
  | EvClickCheckbox => on_checkbox_change c (closure_menu (c_render c)) (closure_autoAddPages (c_render c))
  | EvClickSave => Ok (c, [SaveBlocks])
  | EvFire t p =>
      match prop_at t p (tree (c_render c)) with
      | Some (PHandler hd) => run_handler c hd
      | _ => Ok (c, [])      (** no callback there: nothing happens *)
      end
  end.

(** Running a sequence of events. *)
Fixpoint handle_all (c : config) (es : list event) : result (config * list output) :=
  match es with
  | [] => Ok (c, [])
  | e :: es' => '(c1, o1) ← handle c e; '(c2, o2) ← handle_all c1 es'; Ok (c2, o1 ++ o2)
  end.

(** ** React's update loop

    [commit] above runs the effects once and keeps the state they leave.
    React itself loops: a [setAutoAddPages] call in an effect schedules a
    new render of the same world and a new commit, in which an effect runs
    again only if its dependency changed; an update that stores the value
    already held ([Object.is]) schedules nothing.  [settle fuel] runs at
    most [fuel] commits of that loop; [None] is "out of fuel". *)
Fixpoint settle (fuel : nat) (first : bool) (w : world) (h : hooks)
    : option (result (hooks * list output)) :=
  match fuel with
  | O => None
  | S n =>
      match commit first w h with
      | Throw e => Some (Throw e)
      | Ok (h', outs) =>
          if bool_decide (autoAddPages h' = autoAddPages h) then Some (Ok (h', outs))
          else match settle n false w h' with
               | Some (Ok (h'', outs')) => Some (Ok (h'', outs ++ outs'))
               | r => r
               end
      end
  end.

(** The stores hold well-formed objects. *)
Definition world_wf (w : world) : Prop := Forall (λ e, wf e.2) (menus (w_core w)).

Definition event_wf (e : event) : Prop :=
  match e with EvUpdate w => world_wf w | _ => True end.

(** The configurations of a mounted component. *)
Inductive reachable : config → Prop :=
  | reachable_mount w c outs : world_wf w → mount w = Ok (c, outs) → reachable c
  | reachable_step c e c' outs : reachable c → event_wf e → handle c e = Ok (c', outs) → reachable c'.

(** A sample world for the concrete runs: menu 3 loaded with the given
    [auto_add], one root block "nav", selected. *)
Definition sample_editor : editor_store :=
  {| rootBlocks := ["nav"]; allBlocks := ["nav"]; selectionStart := Some "nav"; navigationMode := false |}.

Definition sample_world (b : bool) : world :=
  {| w_props := {| menuId := JNumber 3 |}; w_editor := sample_editor;
     w_core := {| menus := [(JNumber 3, obj_set "auto_add" (JBool b) (obj_set "id" (JNumber 3) empty_obj))] |} |}.

Definition sample_config : config :=
  let h := {| autoAddPages := JBool false; dep_menuId := JNumber 3; dep_rootBlockId := Some "nav" |} in
  {| c_world := sample_world false; c_hooks := h; c_render := render (sample_world false) h |}.

(** The effects' dependencies match the world, and the configuration holds
    the render of its state. *)
Definition synced (c : config) : Prop :=
  dep_menuId (c_hooks c) = menuId (w_props (c_world c)) ∧
  dep_rootBlockId (c_hooks c) = rootBlockId (c_world c) ∧
  c_render c = render (c_world c) (c_hooks c).

(** ** Lemmas *)

Lemma commit_deps first w h h' outs :
  commit first w h = Ok (h', outs) →
  dep_menuId h' = menuId (w_props w) ∧ dep_rootBlockId h' = rootBlockId w.
Proof.
  unfold commit. destruct (_ || _); [destruct (effect_auto_add w h)|]; simpl;
    intros; result_simpl; by subst.
Qed.

Lemma commit_outputs first w h h' outs :
  commit first w h = Ok (h', outs) →
  outs = if first || negb (bool_decide (rootBlockId w = dep_rootBlockId h))
         then effect_select_root w else [].
Proof.
  unfold commit. destruct (if first || negb (bool_decide (menuId (w_props w) = dep_menuId h)) then effect_auto_add w h else Ok h); simpl; [|discriminate]. by intros [= _ <-].
Qed.

(** Re-rendering the same world runs no effect. *)
Lemma commit_unchanged w h :
  dep_menuId h = menuId (w_props w) → dep_rootBlockId h = rootBlockId w →
  commit false w h = Ok (h, []).
Proof.
  intros H1 H2. unfold commit. rewrite H1, H2, !bool_decide_eq_true_2 by done. simpl.
  destruct h; simpl in *; by subst.
Qed.

(** A checkbox change from a synced configuration commits without running
    an effect. *)
Lemma on_checkbox_change_result c m cur :
  synced c →
  on_checkbox_change c m cur =
  let v := JBool (negb (to_boolean cur)) in
  let h := {| autoAddPages := v; dep_menuId := dep_menuId (c_hooks c);
              dep_rootBlockId := dep_rootBlockId (c_hooks c) |} in
  Ok ({| c_world := c_world c; c_hooks := h; c_render := render (c_world c) h |},
      [SaveMenu (spread_with m "auto_add" v)]).
Proof.
  intros (H1 & H2 & _). unfold on_checkbox_change. simpl.
  by rewrite commit_unchanged by done.
Qed.

Lemma run_handler_world c hd c' outs : run_handler c hd = Ok (c', outs) → c_world c' = c_world c.
Proof.
  destruct hd as [|m cur|]; simpl; [by intros [= <- _]| |by intros [= <- _]].
  unfold on_checkbox_change. simpl.
  destruct (commit false (c_world c) _) as [[h o]|]; simpl; [|discriminate]. by intros [= <- _].
Qed.

(** A callback of the render, called on a synced configuration, succeeds
    and leaves it synced. *)
Lemma run_handler_synced c hd :
  synced c → ∃ c' outs, run_handler c hd = Ok (c', outs) ∧ synced c'.
Proof.
  intros Hs. destruct hd as [|m cur|]; simpl; [by eexists _, _|..|by eexists _, _].
  rewrite on_checkbox_change_result by done. eexists _, _. split; [done|].
  destruct Hs as (H1 & H2 & _). by split_and!.
Qed.

Lemma mount_synced w c outs : mount w = Ok (c, outs) → synced c.
Proof.
  unfold mount. destruct (commit true w _) as [[h o]|] eqn:E; simpl; [|discriminate].
  intros [= <- _]. apply commit_deps in E as [? ?]. by split_and!.
Qed.

Lemma handle_synced c e c' outs : synced c → handle c e = Ok (c', outs) → synced c'.
Proof.
  intros Hs. destruct e as [w'| | |t p]; simpl.
  - destruct (commit false w' _) as [[h o]|] eqn:E; simpl; [|discriminate].
    intros [= <- _]. apply commit_deps in E as [? ?]. by split_and!.
  - destruct (run_handler_synced c (OnCheckboxChange (closure_menu (c_render c))
      (closure_autoAddPages (c_render c))) Hs) as (c1 & o1 & E & Hs1).
    simpl in E. rewrite E. by intros [= <- _].
  - by intros [= <- _].
  - destruct (prop_at t p _) as [[| | | |hd]|]; [by intros [= <- _]..| |by intros [= <- _]].
    destruct (run_handler_synced c hd Hs) as (c1 & o1 & -> & Hs1). by intros [= <- _].
Qed.

Lemma reachable_synced c : reachable c → synced c.
Proof.
  induction 1 as [w c outs _ Hm|c e c' outs _ IH _ Hh].
  - by eapply mount_synced.
  - by eapply handle_synced.
Qed.

Lemma handle_world c e c' outs :
  handle c e = Ok (c', outs) → c_world c' = match e with EvUpdate w => w | _ => c_world c end.
Proof.
  destruct e as [w'| | |t p]; simpl.
  - destruct (commit false w' _) as [[h o]|]; simpl; [|discriminate]. by intros [= <- _].
  - apply (run_handler_world c (OnCheckboxChange _ _)).
  - by intros [= <- _].
  - destruct (prop_at t p _) as [[| | | |hd]|]; [by intros [= <- _]..| |by intros [= <- _]].
    apply run_handler_world.
Qed.

Lemma reachable_world_wf c : reachable c → world_wf (c_world c).
Proof.
  induction 1 as [w c outs Hw Hm|c e c' outs _ IH He Hh].
  - unfold mount in Hm. destruct (commit true w _) as [[h o]|]; simpl in Hm; [|discriminate].
    by injection Hm as <- _.
  - rewrite (handle_world _ _ _ _ Hh). by destruct e.
Qed.

Lemma menu_wf w m : world_wf w → menu w = Some m → wf m.
Proof.
  intros Hw Hm%assoc_get_Some. unfold world_wf in Hw.
  by eapply Forall_forall in Hw; [|exact Hm].
Qed.

Lemma click_result c :
  synced c →
  handle c EvClickCheckbox =
  let v := JBool (negb (to_boolean (autoAddPages (c_hooks c)))) in
  let h := {| autoAddPages := v; dep_menuId := dep_menuId (c_hooks c);
              dep_rootBlockId := dep_rootBlockId (c_hooks c) |} in
  Ok ({| c_world := c_world c; c_hooks := h; c_render := render (c_world c) h |},
      [SaveMenu (spread_with (menu (c_world c)) "auto_add" v)]).
Proof.
  intros Hs. simpl. rewrite on_checkbox_change_result by done.
  destruct Hs as (_ & _ & ->). done.
Qed.

(** ** Properties of the component *)

(** C5: Mounting before the menu entity is loaded throws: the effect of
    lines 73-75 reads [menu.auto_add] with [menu] undefined, although lines
    66-69 guard the same read for the initial state. *)
Theorem mount_throws_without_menu w :
  menu w = None → ∃ e, mount w = Throw e.
Proof. intros Hm. unfold mount, commit, effect_auto_add. rewrite Hm. simpl. by eexists. Qed.

(** C23: Switching to a menu id whose menu is not loaded throws in the same
    effect. *)
Theorem update_throws_on_unloaded_menu c w' :
  menuId (w_props w') ≠ dep_menuId (c_hooks c) → menu w' = None →
  ∃ e, handle c (EvUpdate w') = Throw e.
Proof.
  intros Hid Hm. simpl. unfold commit, effect_auto_add.
  rewrite (bool_decide_eq_false_2 (menuId (w_props w') = dep_menuId (c_hooks c))) by done.
  rewrite Hm. simpl. by eexists.
Qed.

(** C24: Mounting with the menu loaded shows the menu's [auto_add] in the
    checkbox and selects the root block when there is one. *)
Theorem mount_loaded w m :
  menu w = Some m →
  ∃ c, mount w = Ok (c, effect_select_root w) ∧ checked (c_render c) = auto_add_of m.
Proof. intros Hm. unfold mount, commit, effect_auto_add. rewrite Hm. simpl. by eexists. Qed.

(** C32: React's update loop settles within two commits: after the first
    commit every dependency equals what it just saw, so the re-render that
    a changed checkbox value schedules runs no effect and changes nothing.
    With two or more commits of fuel the loop ends with the result of
    [commit], the single pass that [mount] and [handle] use. *)
Theorem settle_two_commits fuel first w h :
  2 ≤ fuel → settle fuel first w h = Some (commit first w h).
Proof.
  intros Hf. destruct fuel as [|[|n]]; [lia|lia|]. cbn [settle].
  destruct (commit first w h) as [[h' outs]|e] eqn:E; [|done].
  case_bool_decide; [done|]. cbn [settle].
  destruct (commit_deps _ _ _ _ _ E) as [H1 H2].
  rewrite commit_unchanged by done. rewrite bool_decide_eq_true_2 by done.
  by rewrite app_nil_r.
Qed.

(** C20: In every configuration of a mounted component, the markup it
    rendered hides the toolbar exactly in navigation mode, holds a
    [BlockToolbar] exactly when the selection start is a block, shows the
    local state in the checkbox and hands the current [menuId] to
    [DeleteMenuButton]; and the callbacks it bound are the component's
    handlers: calling the button's [onClick] is a click on "Save
    navigation", calling the checkbox's [onChange] is a click on the
    checkbox, and [DeleteMenuButton]'s [onDelete] calls [onDeleteMenu]. *)
Theorem reachable_tree c :
  reachable c →
  let t := tree (c_render c) in
  prop_at "NavigableToolbar" "className" t =
    Some (PString (if navigationMode (w_editor (c_world c))
                   then toolbar_base +:+ " is-hidden" else toolbar_base)) ∧
  has_type "BlockToolbar" t = hasSelectedBlock (c_world c) ∧
  prop_at "CheckboxControl" "checked" t = Some (PValue (autoAddPages (c_hooks c))) ∧
  prop_at "DeleteMenuButton" "menuId" t = Some (PValue (menuId (w_props (c_world c)))) ∧
  handle c (EvFire "Button" "onClick") = handle c EvClickSave ∧
  handle c (EvFire "CheckboxControl" "onChange") = handle c EvClickCheckbox ∧
  handle c (EvFire "DeleteMenuButton" "onDelete") = Ok (c, [DeleteMenu]).
Proof.
  intros (_ & _ & Hr)%reachable_synced. cbn zeta. unfold handle. rewrite Hr.
  unfold render, view. simpl. destruct (hasSelectedBlock (c_world c)); split_and!; done.
Qed.

(** C12: A click on the checkbox saves the menu with [auto_add] set to the
    value the checkbox then shows, the negation of the value it showed, and
    keeps the menu's other properties. *)
Theorem click_saves_displayed_value c c' outs :
  reachable c → handle c EvClickCheckbox = Ok (c', outs) →
  ∃ m, outs = [SaveMenu m] ∧
    obj_get "auto_add" m = Some (checked (c_render c')) ∧
    checked (c_render c') = JBool (negb (to_boolean (checked (c_render c)))) ∧
    (∀ k, k ≠ "auto_add" → obj_get k m = menu (c_world c) ≫= obj_get k).
Proof.
  intros Hr. pose proof (reachable_synced c Hr) as Hs.
  rewrite click_result by done. intros [= <- <-]. destruct Hs as (_ & _ & ->).
  eexists. split_and!; [done|..].
  - destruct (menu (c_world c)); unfold spread_with; by rewrite obj_get_set_eq.
  - done.
  - intros k Hk. destruct (menu (c_world c)) as [m|] eqn:Hm; simpl.
    + rewrite spread_with_Some by (eapply menu_wf; [apply reachable_world_wf|]; done).
      by rewrite obj_get_set_ne by done.
    + by rewrite spread_with_None, obj_get_set_ne, obj_get_empty by done.
Qed.

(** C19: After a store or props change, the component dispatches
    [selectBlock] for the new root block exactly when the root block id
    changed and is a non-empty string, and nothing else. *)
Theorem update_outputs c w' c' outs :
  reachable c → handle c (EvUpdate w') = Ok (c', outs) →
  outs = if decide (rootBlockId w' = rootBlockId (c_world c)) then [] else effect_select_root w'.
Proof.
  intros Hr. destruct (reachable_synced c Hr) as (_ & H2 & _). simpl.
  destruct (commit false w' (c_hooks c)) as [[h o]|] eqn:E; simpl; [|discriminate].
  intros [= _ <-]. apply commit_outputs in E. rewrite E, H2. simpl.
  destruct (decide (rootBlockId w' = rootBlockId (c_world c))) as [Heq|Hne].
  - by rewrite bool_decide_eq_true_2.
  - by rewrite bool_decide_eq_false_2.
Qed.

(** C22: Clicking the checkbox twice restores the value it shows, saving
    first the flipped value, then the original one. *)
Theorem double_click_restores c c' outs :
  reachable c → handle_all c [EvClickCheckbox; EvClickCheckbox] = Ok (c', outs) →
  let b := to_boolean (checked (c_render c)) in
  to_boolean (checked (c_render c')) = b ∧
  ∃ m1 m2, outs = [SaveMenu m1; SaveMenu m2] ∧
    obj_get "auto_add" m1 = Some (JBool (negb b)) ∧ obj_get "auto_add" m2 = Some (JBool b).
Proof.
  intros Hr. pose proof (reachable_synced c Hr) as Hs. cbn [handle_all].
  rewrite click_result by done. cbn [mbind result_bind].
  rewrite click_result by (destruct Hs as (? & ? & ?); by split_and!). cbn [mbind result_bind].
  intros [= <- <-]. destruct Hs as (_ & _ & ->). simpl. rewrite negb_involutive.
  split; [done|]. do 2 eexists. split; [done|].
  split; [destruct (menu (c_world c))|destruct (menu (c_world c))]; unfold spread_with;
    by rewrite obj_get_set_eq.
Qed.

(** A mounted component handles a click, or an update that keeps the menu
    id or comes with the menu loaded, without throwing. *)
Lemma handle_ok c e :
  reachable c →
  match e with
  | EvUpdate w' => menuId (w_props w') = menuId (w_props (c_world c)) ∨ is_Some (menu w')
  | _ => True
  end →
  ∃ r, handle c e = Ok r.
Proof.
  intros Hr He. pose proof (reachable_synced c Hr) as Hs. destruct e as [w'| | |t p].
  - destruct Hs as (H1 & _ & _). simpl. unfold commit, effect_auto_add. rewrite H1.
    destruct He as [->|[m Hm]].
    + rewrite (bool_decide_eq_true_2 (menuId (w_props (c_world c)) = menuId (w_props (c_world c))))
        by done. simpl. by eexists.
    + rewrite Hm. destruct (negb (bool_decide (menuId (w_props w') = menuId (w_props (c_world c))))); simpl; by eexists.
  - rewrite click_result by done. by eexists.
  - by eexists.
  - simpl. destruct (prop_at t p _) as [[| | | |hd]|]; [by eexists..| |by eexists].
    destruct (run_handler_synced c hd Hs) as (c1 & o1 & -> & _). by eexists.
Qed.

(** C21: A mounted component never throws on a click, nor on a store or
    props change that keeps the menu id or comes with the menu loaded. *)
Theorem handle_total c e :
  reachable c →
  match e with
  | EvUpdate w' => menuId (w_props w') = menuId (w_props (c_world c)) ∨ is_Some (menu w')
  | _ => True
  end →
  ∃ r, handle c e = Ok r.
Proof. apply handle_ok. Qed.


(** C25: The checkbox does not follow the store: after a store or props
    change that keeps the menu id (say another editor saved the menu with
    a different [auto_add]), the checkbox shows the value it showed
    before, whatever the loaded menu now holds. *)
Theorem checkbox_ignores_store_update c w' c' outs :
  reachable c → menuId (w_props w') = menuId (w_props (c_world c)) →
  handle c (EvUpdate w') = Ok (c', outs) →
  checked (c_render c') = checked (c_render c).
Proof.
  intros Hr Hid. destruct (reachable_synced c Hr) as (H1 & _ & Hrd). simpl.
  unfold commit. rewrite Hid, <-H1.
  rewrite (bool_decide_eq_true_2 (dep_menuId (c_hooks c) = dep_menuId (c_hooks c))) by done. simpl.
  intros [= <- _]. by rewrite Hrd.
Qed.

(** ** Witnesses *)

Lemma sample_reachable : reachable sample_config.
Proof. apply (reachable_mount (sample_world false) _ [SelectBlock "nav"]); [unfold world_wf; decide_closed|reflexivity]. Qed.

Lemma mount_throws_without_menu_witness :
  let w := {| w_props := {| menuId := JNumber 4 |}; w_editor := sample_editor;
              w_core := {| menus := [] |} |} in
  menu w = None ∧ ∃ e, mount w = Throw e.
Proof. intros w. split; [reflexivity|]. apply mount_throws_without_menu. reflexivity. Defined.

Lemma update_throws_on_unloaded_menu_witness :
  let w' := {| w_props := {| menuId := JNumber 4 |}; w_editor := sample_editor;
               w_core := {| menus := [] |} |} in
  menuId (w_props w') ≠ dep_menuId (c_hooks sample_config) ∧ menu w' = None ∧
  ∃ e, handle sample_config (EvUpdate w') = Throw e.
Proof.
  intros w'. assert (H1 : menuId (w_props w') ≠ dep_menuId (c_hooks sample_config)) by discriminate.
  split_and!; [exact H1|reflexivity|]. apply update_throws_on_unloaded_menu; [exact H1|reflexivity].
Defined.

Lemma mount_loaded_witness :
  let m := obj_set "auto_add" (JBool true) (obj_set "id" (JNumber 3) empty_obj) in
  menu (sample_world true) = Some m ∧
  ∃ c, mount (sample_world true) = Ok (c, effect_select_root (sample_world true)) ∧
       checked (c_render c) = auto_add_of m.
Proof. intros m. split; [reflexivity|]. apply mount_loaded. reflexivity. Defined.

Lemma reachable_tree_witness :
  reachable sample_config ∧
  has_type "BlockToolbar" (tree (c_render sample_config)) = true ∧
  handle sample_config (EvFire "Button" "onClick") = Ok (sample_config, [SaveBlocks]).
Proof.
  pose proof (reachable_tree sample_config sample_reachable) as (_ & H2 & _ & _ & H5 & _ & _).
  split_and!; [exact sample_reachable|rewrite H2; reflexivity|rewrite H5; reflexivity].
Defined.

Lemma click_saves_displayed_value_witness :
  reachable sample_config ∧
  ∃ c' outs, handle sample_config EvClickCheckbox = Ok (c', outs) ∧
  ∃ m, outs = [SaveMenu m] ∧ obj_get "auto_add" m = Some (checked (c_render c')) ∧
    checked (c_render c') = JBool (negb (to_boolean (checked (c_render sample_config)))) ∧
    (∀ k, k ≠ "auto_add" → obj_get k m = menu (c_world sample_config) ≫= obj_get k).
Proof.
  split; [exact sample_reachable|]. do 2 eexists. split; [reflexivity|].
  apply (click_saves_displayed_value sample_config); [exact sample_reachable|reflexivity].
Defined.

Lemma update_outputs_witness :
  let w' := {| w_props := {| menuId := JNumber 3 |};
               w_editor := {| rootBlocks := ["nav2"]; allBlocks := ["nav2"]; selectionStart := None;
                              navigationMode := true |};
               w_core := w_core (sample_world false) |} in
  reachable sample_config ∧
  ∃ c' outs, handle sample_config (EvUpdate w') = Ok (c', outs) ∧ outs = [SelectBlock "nav2"].
Proof.
  intros w'. split; [exact sample_reachable|]. do 2 eexists. split; [reflexivity|].
  rewrite (update_outputs sample_config w' _ _ sample_reachable eq_refl). reflexivity.
Defined.

Lemma double_click_restores_witness :
  reachable sample_config ∧
  ∃ c' outs, handle_all sample_config [EvClickCheckbox; EvClickCheckbox] = Ok (c', outs) ∧
  to_boolean (checked (c_render c')) = false ∧
  ∃ m1 m2, outs = [SaveMenu m1; SaveMenu m2] ∧
    obj_get "auto_add" m1 = Some (JBool true) ∧ obj_get "auto_add" m2 = Some (JBool false).
Proof.
  split; [exact sample_reachable|]. do 2 eexists. split; [reflexivity|].
  apply (double_click_restores sample_config); [exact sample_reachable|reflexivity].
Defined.

Lemma handle_total_witness :
  reachable sample_config ∧
  (menuId (w_props (sample_world true)) = menuId (w_props (c_world sample_config)) ∨
   is_Some (menu (sample_world true))) ∧
  ∃ r, handle sample_config (EvUpdate (sample_world true)) = Ok r.
Proof.
  assert (H : menuId (w_props (sample_world true)) = menuId (w_props (c_world sample_config)) ∨
              is_Some (menu (sample_world true))) by (left; reflexivity).
  split_and!; [exact sample_reachable|exact H|exact (handle_total sample_config (EvUpdate _) sample_reachable H)].
Defined.

(** The loop needs its second commit when switching menus changes the
    checkbox: one commit of fuel is not enough, two are. *)
Lemma settle_two_commits_witness :
  let w' := {| w_props := {| menuId := JNumber 4 |}; w_editor := sample_editor;
               w_core := {| menus := [(JNumber 4, obj_set "auto_add" (JBool true) empty_obj)] |} |} in
  settle 1 false w' (c_hooks sample_config) = None ∧
  2 ≤ 2 ∧ settle 2 false w' (c_hooks sample_config) = Some (commit false w' (c_hooks sample_config)).
Proof.
  intros w'. split_and!; [reflexivity|lia|].
  apply settle_two_commits. lia.
Defined.

Lemma checkbox_ignores_store_update_witness :
  menu (sample_world true) ≫= obj_get "auto_add" = Some (JBool true) ∧
  ∃ c' outs, handle sample_config (EvUpdate (sample_world true)) = Ok (c', outs) ∧
    checked (c_render c') = JBool false.
Proof.
  split; [reflexivity|]. eexists _, _. split; [reflexivity|].
  exact (checkbox_ignores_store_update sample_config (sample_world true) _ _ sample_reachable eq_refl eq_refl).
Defined.


End BlockEditorArea.
